(** * Bedrock agent comparison: fan-out invocation and result collection

    A shallow embedding of [app.py]: the single-agent invocation
    [invoke_agent] (lines 22-69) and the clear and compare handlers of the
    page script (lines 112-150), with the properties the design document
    states about them. The handlers take the values the widgets return as
    arguments. The widgets that configure the models (lines 86-101), the
    display of the results (lines 152-168) and the comparison summary (lines
    171-185) are embedded after them, for the further properties. The JSON
    export (lines 187-195) and the first initialisation of the session state
    (lines 15-16) are outside the model.

    Python values are embedded as follows.
    - [str] is [string]; the empty string is the only falsy one.
    - A result dictionary is a [gmap string pyval]: the keys are the
      dictionary's string keys, the values are booleans or strings.
    - [st.session_state.responses] is a [gmap string (gmap string pyval)].
    - An exception that [except Exception as e] catches is an [exn];
      [str(e)] is its [exn_str]. [py_raise] adds the exceptions the clause
      does not catch.
    - Code that can raise runs in a state-and-exception monad; the state of a
      worker is the log of the requests it sent to the remote service, the
      state of the main thread is the page.
    - What the program reads from outside (the remote service, the clock, the
      instants at which the futures complete) is an argument of the model. *)

From Stdlib Require Import String Ascii List DecimalString.
From stdpp Require Import gmap strings list fin_maps sorting.

(** ** Python strings *)

Module PyStr.

(** Truthiness of a [str]: [if s:] holds when [s] is not empty. *)
Definition truthy (s : string) : bool :=
  match s with
  | EmptyString => false
  | String _ _ => true
  end.

(** [needle in hay] on strings: [needle] occurs as a contiguous
    substring of [hay]. *)
Fixpoint contains (needle hay : string) : bool :=
  String.prefix needle hay ||
  match hay with
  | EmptyString => false
  | String _ rest => contains needle rest
  end.

(** The newline character of a Python literal. *)
Definition nl : string := String (ascii_of_nat 10) EmptyString.

End PyStr.

(** ** Python values, exceptions and the monad of raising code *)

Inductive pyval : Type :=
| VBool (b : bool)
| VStr (s : string).

Global Instance pyval_eq_dec : EqDecision pyval.
Proof. solve_decision. Defined.

(** A Python dictionary with string keys, as the result dictionaries are. *)
Abbreviation pydict := (gmap string pyval).

(** An instance of [Exception] (service errors, transport errors, decoding
    errors, faults of the program); [str(e)] is [exn_str e]. An instance of
    [BaseException] that is not one of [Exception] is no value of this type:
    see [py_raise]. *)
Record exn : Type := Exn { exn_str : string }.

Global Instance exn_eq_dec : EqDecision exn.
Proof. solve_decision. Defined.

Module Exc.

(** A computation over a mutable state [S] that returns an [A] or raises.
    The state survives a raise, as mutations do in Python. *)
Definition M (S A : Type) : Type := S -> (exn + A) * S.

Definition ret {S A} (a : A) : M S A := fun s => (inr a, s).

Definition raise {S A} (e : exn) : M S A := fun s => (inl e, s).

Definition bind {S A B} (m : M S A) (k : A -> M S B) : M S B :=
  fun s =>
    match m s with
    | (inr a, s') => k a s'
    | (inl e, s') => (inl e, s')
    end.

(** [try: body  except Exception as e: handler e]. Every value of [exn] is
    an instance of [Exception], so every raise of the model is caught. *)
Definition try_except {S A} (body : M S A) (handler : exn -> M S A) : M S A :=
  fun s =>
    match body s with
    | (inr a, s') => (inr a, s')
    | (inl e, s') => handler e s'
    end.

(** The outcome of a call that touches no state. *)
Definition lift {S A} (r : exn + A) : M S A := fun s => (r, s).

Definition modify {S} (f : S -> S) : M S unit := fun s => (inr tt, f s).

End Exc.

Notation "x <- m ;; k" := (Exc.bind m (fun x => k))
  (at level 100, m at next level, right associativity, only parsing).

(** ** The remote service as [invoke_agent] sees it *)

(** The keyword arguments of [client.invoke_agent]. *)
Record request : Type := Request {
  agentId : string;
  agentAliasId : string;
  sessionId : string;
  inputText : string
}.

Global Instance request_eq_dec : EqDecision request.
Proof. solve_decision. Defined.

(** [chunk_data]: the value under ['chunk']; [chunk_bytes] is [None] when
    the key ['bytes'] is absent. *)
Record chunk_data : Type := ChunkData { chunk_bytes : option (list Byte.byte) }.

(** One event of the completion stream; [ev_chunk] is [None] when the key
    ['chunk'] is absent (trace events and the like). *)
Record event : Type := Event { ev_chunk : option chunk_data }.

(** What iterating the completion stream does next: deliver an event, or
    raise (the transport reports an error in the middle of the stream). *)
Inductive stream_item : Type :=
| Yield (ev : event)
| Fault (e : exn).

(** The dictionary [client.invoke_agent] returns. [completion] is
    [response.get('completion')]: [None] when the key is missing or its
    value is falsy, otherwise the items iteration goes through. *)
Record response : Type := Response { completion : option (list stream_item) }.

(** A client of the agent runtime: its [invoke_agent] method. *)
Definition client : Type := request -> exn + response.

(** Everything outside the program that one call of [invoke_agent] reads:
    the client factory [boto3.client(service, region_name=...)] and the
    string [datetime.now().strftime("%Y-%m-%d %H:%M:%S")] gives when the
    result dictionary is built. *)
Record task_world : Type := TaskWorld {
  boto3_client : string -> string -> exn + client;
  now : string
}.

(** ** [invoke_agent] (lines 22-69) *)

(** The text line 58-62 appends to an error message that mentions stop
    sequences. *)
Definition stop_sequences_hint : string :=
  PyStr.nl +:+ PyStr.nl +:+
  "💡 Solution: This model doesn't support stop sequences. You need to update your Bedrock agent configuration:" +:+ PyStr.nl +:+
  "1. Go to AWS Console → Bedrock → Agents" +:+ PyStr.nl +:+
  "2. Select your agent and edit it" +:+ PyStr.nl +:+
  "3. In the model settings, remove any stop sequences from the Inference Configuration" +:+ PyStr.nl +:+
  "4. Save and create a new version/alias".

(** The dictionary of lines 47-52. *)
Definition success_result (response_text model_name timestamp : string) : pydict :=
  {[ "success" := VBool true;
     "response" := VStr response_text;
     "model" := VStr model_name;
     "timestamp" := VStr timestamp ]}.

(** The dictionary of lines 64-69, and of lines 145-150. *)
Definition failure_result (error_msg model_name timestamp : string) : pydict :=
  {[ "success" := VBool false;
     "error" := VStr error_msg;
     "model" := VStr model_name;
     "timestamp" := VStr timestamp ]}.

(** Lines 54-62: the message of a caught exception, with the hint appended
    when it mentions the marker. *)
Definition annotate (error_msg : string) : string :=
  if PyStr.contains "stopSequences" error_msg
  then error_msg +:+ stop_sequences_hint
  else error_msg.

(** Line 49: [output_text if output_text else "No response received"]. *)
Definition response_or_placeholder (output_text : string) : string :=
  if PyStr.truthy output_text then output_text else "No response received".

Section Invocation.

(** [bytes.decode('utf-8')] of the standard library: the decoded text, or
    the [UnicodeDecodeError] it raises. *)
Variable utf8_decode : list Byte.byte -> exn + string.

(** A worker's computations; the state is the log of the requests that
    reached the remote service, oldest first. *)
Definition Worker (A : Type) : Type := Exc.M (list request) A.

(** Lines 18-20. *)
Definition get_bedrock_client (w : task_world) (region_name : string)
  : Worker client :=
  Exc.lift (boto3_client w "bedrock-agent-runtime" region_name).

(** [client.invoke_agent(...)]: the request goes out, then the service
    answers or the call raises. *)
Definition client_invoke_agent (c : client) (req : request) : Worker response :=
  fun log => (c req, log ++ [req]).

(** Lines 41-45, the body of the loop over the stream. *)
Definition on_event (output_text : string) (ev : event) : Worker string :=
  match ev_chunk ev with
  | Some chunk =>
      match chunk_bytes chunk with
      | Some b =>
          text <- Exc.lift (utf8_decode b) ;;
          Exc.ret (output_text +:+ text)
      | None => Exc.ret output_text
      end
  | None => Exc.ret output_text
  end.

(** Line 40, [for event in completion], threading [output_text]. *)
Fixpoint for_event (items : list stream_item) (output_text : string)
  : Worker string :=
  match items with
  | [] => Exc.ret output_text
  | Yield ev :: rest =>
      output_text' <- on_event output_text ev ;;
      for_event rest output_text'
  | Fault e :: _ => Exc.raise e
  end.

(** Lines 25-52, the body of the [try]. *)
Definition invoke_agent_try (w : task_world)
    (agent_id agent_alias_id session_id prompt model_name region_name : string)
  : Worker pydict :=
  client <- get_bedrock_client w region_name ;;
  response <- client_invoke_agent client
                {| agentId := agent_id; agentAliasId := agent_alias_id;
                   sessionId := session_id; inputText := prompt |} ;;
  output_text <- match completion response with
                 | Some items => for_event items ""
                 | None => Exc.ret ""
                 end ;;
  Exc.ret (success_result (response_or_placeholder output_text)
                          model_name (now w)).

(** Lines 53-69, the [except Exception as e] clause. *)
Definition invoke_agent_except (w : task_world) (model_name : string) (e : exn)
  : Worker pydict :=
  Exc.ret (failure_result (annotate (exn_str e)) model_name (now w)).

Definition invoke_agent (w : task_world)
    (agent_id agent_alias_id session_id prompt model_name region_name : string)
  : Worker pydict :=
  Exc.try_except
    (invoke_agent_try w agent_id agent_alias_id session_id prompt
                      model_name region_name)
    (invoke_agent_except w model_name).

End Invocation.

(** ** The worker pool *)

(** One entry of [models_config] (lines 96-101). *)
Record config : Type := Config {
  name : string;
  agent_id : string;
  agent_alias_id : string;
  session_id : string
}.

Global Instance config_eq_dec : EqDecision config.
Proof. solve_decision. Defined.

(** How the call a worker makes for one future ends: [invoke_agent] runs in
    a world [w] and returns, or an exception leaves the call without being
    caught inside [invoke_agent] (the case lines 144-150 provide for), after
    the requests [sent] went out. *)
Inductive worker_fate : Type :=
| Returns (w : task_world)
| Escapes (e : exn) (sent : list request).

(** What the run of one future depends on besides the program: the fate of
    its worker, the instant the future completes, and the string
    [datetime.now().strftime(...)] gives at line 149 if the main thread has
    to build the result itself. *)
Record future_env : Type := FutureEnv {
  fate : worker_fate;
  finished_at : nat;
  main_now : string
}.

(** A completed future, with the entry [future_to_config] keeps for it. *)
Record future : Type := Future {
  fut_config : config;
  fut_result : exn + pydict;
  fut_sent : list request;
  fut_finished_at : nat;
  fut_main_now : string
}.

(** [as_completed]: the futures in the order in which they complete. Futures
    that complete at the same instant keep their submission order. This is
    the order of a run in which no future has completed when [as_completed]
    is called; [concurrent.futures] fixes no order among the futures that
    have completed by then. What is stated of a run in some order, whatever
    it is, is stated of [for_future] on a list or of [pool_step]. *)
Section AsCompleted.

Context {A : Type} (key : A -> nat).

Fixpoint insert_by (x : A) (l : list A) : list A :=
  match l with
  | [] => [x]
  | y :: rest =>
      if key x <=? key y then x :: y :: rest else y :: insert_by x rest
  end.

Definition sort_by (l : list A) : list A := foldr insert_by [] l.

End AsCompleted.

Definition as_completed (futures : list future) : list future :=
  sort_by fut_finished_at futures.

(** The state of the page the handlers touch: [st.session_state.responses]
    and the messages shown with [st.error] by line 118. *)
Record page : Type := Page {
  responses : gmap string pydict;
  errors : list string
}.

Definition set_responses (r : gmap string pydict) (p : page) : page :=
  {| responses := r; errors := errors p |}.

(** [st.session_state.responses[key] = value]. *)
Definition store_response (key : string) (value : pydict) (p : page) : page :=
  set_responses (<[key := value]> (responses p)) p.

Definition st_error (msg : string) (p : page) : page :=
  {| responses := responses p; errors := errors p ++ [msg] |}.

(** How a run of the script past line 111 ends. *)
Inductive script_end : Type :=
| Rerun                              (* [st.rerun()], line 114 *)
| Idle                               (* neither handler ran *)
| Rejected                           (* line 118 *)
| Compared (futures : list future).  (* lines 120-150 ran; the futures submitted *)

Section Script.

Variable utf8_decode : list Byte.byte -> exn + string.

Definition Main (A : Type) : Type := Exc.M page A.

(** Lines 127-135: the call submitted for one config, run by its worker. *)
Definition submit (aws_region prompt : string) (fe : future_env) (c : config)
  : future :=
  let run :=
    match fate fe with
    | Returns w =>
        invoke_agent utf8_decode w (agent_id c) (agent_alias_id c)
                     (session_id c) prompt (name c) aws_region []
    | Escapes e sent => (inl e, sent)
    end in
  {| fut_config := c;
     fut_result := run.1;
     fut_sent := run.2;
     fut_finished_at := finished_at fe;
     fut_main_now := main_now fe |}.

(** Lines 126-136: one future per config, in the order of [models_config];
    the [i]-th runs in the environment [env i]. *)
Definition submit_all (aws_region prompt : string) (env : nat -> future_env)
    (models_config : list config) : list future :=
  imap (fun i c => submit aws_region prompt (env i) c) models_config.

(** Lines 140-150, the body of the collection loop. *)
Definition collect (f : future) : Main unit :=
  let config := fut_config f in
  Exc.try_except
    (result <- Exc.lift (fut_result f) ;;
     Exc.modify (store_response (name config) result))
    (fun e =>
       Exc.modify
         (store_response (name config)
            (failure_result (exn_str e) (name config) (fut_main_now f)))).

(** Line 139, [for future in as_completed(future_to_config)]. *)
Fixpoint for_future (completed : list future) : Main unit :=
  match completed with
  | [] => Exc.ret tt
  | f :: rest => _ <- collect f ;; for_future rest
  end.

(** Line 124, [ThreadPoolExecutor(max_workers=...)]: the constructor refuses
    a pool of no worker with a [ValueError]. *)
Definition thread_pool_executor (max_workers : nat) : Main unit :=
  if max_workers =? 0
  then Exc.raise (Exn "max_workers must be greater than 0")
  else Exc.ret tt.

(** Lines 117-150, the body of [if compare_button and prompt]. The pool has
    [num_models] workers, and [num_models] is the length of [models_config]
    (lines 88-101). *)
Definition compare (aws_region prompt : string) (models_config : list config)
    (env : nat -> future_env) : Main script_end :=
  if negb (forallb (fun c => PyStr.truthy (agent_id c)) models_config) then
    _ <- Exc.modify (st_error "Please configure all Agent IDs before comparing.") ;;
    Exc.ret Rejected
  else
    _ <- Exc.modify (set_responses ∅) ;;
    _ <- thread_pool_executor (length models_config) ;;
    let futures := submit_all aws_region prompt env models_config in
    _ <- for_future (as_completed futures) ;;
    Exc.ret (Compared futures).

(** Lines 112-150. [clear_button] and [compare_button] are the values the
    two buttons return in this run of the script. *)
Definition handlers (clear_button compare_button : bool)
    (aws_region prompt : string) (models_config : list config)
    (env : nat -> future_env) : Main script_end :=
  if clear_button then
    _ <- Exc.modify (set_responses ∅) ;;
    Exc.ret Rerun
  else if compare_button && PyStr.truthy prompt then
    compare aws_region prompt models_config env
  else
    Exc.ret Idle.

(** The futures a run submitted, and the requests that reached the remote
    service during it, listed future by future in the order of submission:
    the order in which the workers send them is not part of the model. *)
Definition submitted (e : exn + script_end) : list future :=
  match e with
  | inr (Compared futures) => futures
  | _ => []
  end.

Definition requests_sent (e : exn + script_end) : list request :=
  concat (fut_sent <$> submitted e).

End Script.

(** * Specification vocabulary *)

(** The fields every consumer of a result reads: the discriminator, the
    model name, the timestamp, and the text that goes with the
    discriminator. *)
Definition has_result_fields (d : pydict) : Prop :=
  exists (ok : bool) (model timestamp text : string),
    d !! "success" = Some (VBool ok) /\
    d !! "model" = Some (VStr model) /\
    d !! "timestamp" = Some (VStr timestamp) /\
    d !! (if ok then "response" else "error") = Some (VStr text).

(** The chunk payloads a stream delivers, in delivery order, up to its first
    fault: the ['bytes'] of every event that has a ['chunk'] with ['bytes']. *)
Fixpoint payloads (items : list stream_item) : list (list Byte.byte) :=
  match items with
  | [] => []
  | Yield ev :: rest =>
      match ev_chunk ev ≫= chunk_bytes with
      | Some b => b :: payloads rest
      | None => payloads rest
      end
  | Fault _ :: _ => []
  end.

(** A stream that is delivered to its end. *)
Definition faultless (items : list stream_item) : Prop :=
  Forall (fun it => exists ev, it = Yield ev) items.

(** Concatenation of texts, first to last. *)
Definition join (texts : list string) : string := foldr String.append "" texts.

Definition fut_name (f : future) : string := name (fut_config f).

(** The dictionary the loop body stores for a future: the result of the
    call, or the failure dictionary of lines 145-150. *)
Definition entry (f : future) : pydict :=
  match fut_result f with
  | inr result => result
  | inl e => failure_result (exn_str e) (fut_name f) (fut_main_now f)
  end.

Definition record (m : gmap string pydict) (f : future) : gmap string pydict :=
  <[fut_name f := entry f]> m.

(** The check of line 117, and with the guard of line 116 the whole of what
    the script checks before it submits anything. *)
Definition agent_ids_configured (models_config : list config) : Prop :=
  Forall (fun c => agent_id c <> "") models_config.

Definition passes_validation (prompt : string) (models_config : list config)
  : Prop :=
  prompt <> "" /\ agent_ids_configured models_config.

Global Instance agent_ids_configured_dec cfgs : Decision (agent_ids_configured cfgs).
Proof. unfold agent_ids_configured. apply _. Defined.

Global Instance passes_validation_dec p cfgs : Decision (passes_validation p cfgs).
Proof. unfold passes_validation. apply _. Defined.

(** ** A concrete batch

    The scenario of the design document: two configs [A] and [B], the
    prompt [hello]; the agent of [A] streams the chunks [Hel] and [lo!], the
    call for [B] raises a service error that mentions stop sequences. *)

Module Scenario.

(** A decoder for payloads of 7-bit characters, on which it agrees with
    UTF-8. *)
Definition ascii_decode (b : list Byte.byte) : exn + string :=
  if forallb (fun x => Byte.to_nat x <? 128) b
  then inr (string_of_list_byte b)
  else inl (Exn "'utf-8' codec can't decode bytes").

Definition chunk (text : string) : stream_item :=
  Yield (Event (Some (ChunkData (Some (list_byte_of_string text))))).

(** A world whose agent streams [items]. *)
Definition streaming (items : list stream_item) (clock : string) : task_world :=
  {| boto3_client := fun _ _ => inr (fun _ => inr (Response (Some items)));
     now := clock |}.

(** A world whose remote call raises an error with message [msg]. *)
Definition failing (msg : string) (clock : string) : task_world :=
  {| boto3_client := fun _ _ => inr (fun _ => inl (Exn msg));
     now := clock |}.

Definition config_A : config :=
  {| name := "A"; agent_id := "AGENT0001"; agent_alias_id := "TSTALIASID";
     session_id := "session-0" |}.

Definition config_B : config :=
  {| name := "B"; agent_id := "AGENT0002"; agent_alias_id := "TSTALIASID";
     session_id := "session-1" |}.

Definition configs : list config := [config_A; config_B].

Definition world_A : task_world :=
  streaming [chunk "Hel"; chunk "lo!"] "2024-05-01 10:00:02".

Definition world_B : task_world :=
  failing "stopSequences not supported" "2024-05-01 10:00:01".

(** [B] fails first, [A] answers a second later. *)
Definition env (i : nat) : future_env :=
  match i with
  | 0 => {| fate := Returns world_A; finished_at := 2; main_now := "2024-05-01 10:00:02" |}
  | _ => {| fate := Returns world_B; finished_at := 1; main_now := "2024-05-01 10:00:01" |}
  end.

(** The same batch with the worker of [B] raising past [invoke_agent]. *)
Definition env_escaping (i : nat) : future_env :=
  match i with
  | 1 => {| fate := Escapes (Exn "worker crashed") []; finished_at := 1;
            main_now := "2024-05-01 10:00:01" |}
  | _ => env i
  end.

Definition empty_page : page := {| responses := ∅; errors := [] |}.

(** Two configs the user gave the same name. *)
Definition same_name_configs : list config :=
  [ {| name := "Model"; agent_id := "AGENT0001";
       agent_alias_id := "TSTALIASID"; session_id := "session-0" |};
    {| name := "Model"; agent_id := "AGENT0002";
       agent_alias_id := "TSTALIASID"; session_id := "session-1" |} ].



(** Two configs with an agent id each, one of them with every other field
    left empty. *)
Definition incomplete_configs : list config :=
  [ {| name := ""; agent_id := "AGENT0001"; agent_alias_id := "";
       session_id := "" |};
    config_B ].

(** A config with no agent id. *)
Definition unconfigured : list config :=
  [ config_A;
    {| name := "B"; agent_id := ""; agent_alias_id := "TSTALIASID";
       session_id := "session-1" |} ].

End Scenario.


(** ** The two classes of exceptions

    [except Exception] (lines 53 and 144) catches the instances of
    [Exception]. What a [raise] carries may also be an instance of
    [BaseException] that is not one of [Exception] ([SystemExit],
    [KeyboardInterrupt], [GeneratorExit]). The two clauses are given here
    for both classes. *)






(** The precondition of the design document, negated: the prompt is empty,
    some config has an empty identifying field, or two configs share a
    name. *)
Definition spec_invalid (prompt : string) (cfgs : list config) : Prop :=
  prompt = "" \/
  Exists (fun c => name c = "" \/ agent_id c = "" \/
                   agent_alias_id c = "" \/ session_id c = "") cfgs \/
  ~ NoDup (name <$> cfgs).

(** A run that ends with the batch rejected: the validation message was
    shown and no future was submitted. *)
Definition rejected_wholesale (out : (exn + script_end) * page) (p : page)
  : Prop :=
  out.1 = inr Rejected /\
  errors out.2 = errors p ++ ["Please configure all Agent IDs before comparing."] /\
  submitted out.1 = [] /\
  requests_sent out.1 = [].

(** The items iteration goes through: those of the stream, none when the
response has no stream. *)
Definition stream_of (resp : response) : list stream_item :=
default [] (completion resp).

(** ** The pool as a transition system

    The run of lines 124-150 as interleaved steps of the workers and of the
    main thread, from the moment every future is submitted. A worker step ends
    the call of one future. The main thread is in the loop of line 139. What
    the steps owe to [concurrent.futures]: [as_completed] hands out a future
    only once it has completed, hands out each future once, and is exhausted
    when it has handed out every future; leaving the [with] block waits until
    every worker is done. What they owe to the program: the loop body is
    [collect], the loop has no [break] and no [return], and an exception
    raised by the loop body would leave the loop at once. *)

Inductive main_phase : Type :=
| Collecting                 (* in the loop of line 139 *)
| Joining                    (* the loop is over; [with] waits for the workers *)
| Returned                   (* past line 150 *)
| Propagated (e : exn).      (* an exception left the loop *)

Record pool_state : Type := PoolState {
  done_futures : list nat;   (* futures whose call has ended, in that order *)
  yielded : list nat;        (* futures the loop body has run on, in that order *)
  live_page : page;
  phase : main_phase
}.

(** The state when the loop is entered: the mapping was reset at line 120,
every future is submitted and none has completed. *)
Definition pool_start (p : page) : pool_state :=
  {| done_futures := []; yielded := []; live_page := set_responses ∅ p;
     phase := Collecting |}.

Inductive pool_step (futures : list future) : pool_state -> pool_state -> Prop :=
| worker_ends (i : nat) (s : pool_state) :
    i < length futures ->
    i ∉ done_futures s ->
    pool_step futures s
      {| done_futures := done_futures s ++ [i]; yielded := yielded s;
         live_page := live_page s; phase := phase s |}
| loop_body_returns (i : nat) (f : future) (s : pool_state) (p' : page) :
    phase s = Collecting ->
    i ∈ done_futures s ->
    i ∉ yielded s ->
    futures !! i = Some f ->
    collect f (live_page s) = (inr tt, p') ->
    pool_step futures s
      {| done_futures := done_futures s; yielded := yielded s ++ [i];
         live_page := p'; phase := Collecting |}
| loop_body_raises (i : nat) (f : future) (s : pool_state) (e : exn) (p' : page) :
    phase s = Collecting ->
    i ∈ done_futures s ->
    i ∉ yielded s ->
    futures !! i = Some f ->
    collect f (live_page s) = (inl e, p') ->
    pool_step futures s
      {| done_futures := done_futures s; yielded := yielded s ++ [i];
         live_page := p'; phase := Propagated e |}
| loop_ends (s : pool_state) :
    phase s = Collecting ->
    (forall i, i < length futures -> i ∈ yielded s) ->
    pool_step futures s
      {| done_futures := done_futures s; yielded := yielded s;
         live_page := live_page s; phase := Joining |}
| with_block_exits (s : pool_state) :
    phase s = Joining ->
    (forall i, i < length futures -> i ∈ done_futures s) ->
    pool_step futures s
      {| done_futures := done_futures s; yielded := yielded s;
         live_page := live_page s; phase := Returned |}.

(** The states a run of the pool goes through. *)
Definition pool_reachable (futures : list future) (p : page) (s : pool_state)
  : Prop :=
  rtc (pool_step futures) (pool_start p) s.

(** The futures with the given indices. *)
Definition futures_at (futures : list future) (indices : list nat) : list future :=
  omap (fun i => futures !! i) indices.

(** What holds in every state of a run. *)
Record pool_invariant (futures : list future) (p : page) (s : pool_state)
  : Prop := PoolInvariant {
  inv_done_NoDup : NoDup (done_futures s);
  inv_done_bound : forall i, i ∈ done_futures s -> i < length futures;
  inv_yielded_NoDup : NoDup (yielded s);
  inv_yielded_done : forall i, i ∈ yielded s -> i ∈ done_futures s;
  inv_page :
    live_page s =
    set_responses (foldl record ∅ (futures_at futures (yielded s))) p;
  inv_no_exception : forall e, phase s <> Propagated e;
  inv_loop_over :
    phase s = Joining \/ phase s = Returned ->
    forall i, i < length futures -> i ∈ yielded s
}.

(** The futures with their positions in [models_config], and the positions in
the order in which [as_completed] goes through the futures. *)
Definition indexed (futures : list future) : list (nat * future) :=
  zip (seq 0 (length futures)) futures.

Definition completion_order (futures : list future) : list nat :=
  (sort_by (fut_finished_at ∘ snd) (indexed futures)).*1.

(** * Vocabulary of the further properties *)

(** ** Streams that fail *)

(** The request [invoke_agent] builds from its arguments (lines 28-33). *)
Definition request_of (agent_id agent_alias_id session_id prompt : string)
  : request :=
  {| agentId := agent_id; agentAliasId := agent_alias_id;
     sessionId := session_id; inputText := prompt |}.

(** The request of the future of a config. *)
Definition config_request (prompt : string) (c : config) : request :=
  request_of (agent_id c) (agent_alias_id c) (session_id c) prompt.

(** Handling the item raises [e]: the iteration itself raises, or the item is
    a chunk whose bytes do not decode. *)
Definition item_raises (utf8_decode : list Byte.byte -> exn + string)
    (it : stream_item) (e : exn) : Prop :=
  it = Fault e \/
  exists b, it = Yield {| ev_chunk := Some {| chunk_bytes := Some b |} |} /\
            utf8_decode b = inl e.

(** Decoding payloads one after the other onto a text, up to the first one
    that does not decode. *)
Fixpoint decode_onto (utf8_decode : list Byte.byte -> exn + string)
    (text : string) (bs : list (list Byte.byte)) : exn + string :=
  match bs with
  | [] => inr text
  | b :: rest =>
      match utf8_decode b with
      | inl e => inl e
      | inr t => decode_onto utf8_decode (text +:+ t) rest
      end
  end.

(** ** The configuration widgets (lines 86-101) *)

(** [str] of a natural number, as an f-string formats it. *)
Definition decimal (n : nat) : string :=
  NilEmpty.string_of_uint (Nat.to_uint n).

(** [st.text_input(label, value=..., key=...)]: the text typed into the
    widget of that key, or the initial value when nothing was typed. [typed]
    is what the user typed, by widget key. *)
Definition text_input (typed : string -> option string) (value key : string)
  : string :=
  default value (typed key).

(** Lines 91-101, the body of the loop for one [i]. An Agent ID has no
    initial value: it starts empty. *)
Definition config_of_widgets (typed : string -> option string) (i : nat)
  : config :=
  {| name := text_input typed ("Model " +:+ decimal (i + 1))
                        ("name_" +:+ decimal i);
     agent_id := text_input typed "" ("agent_" +:+ decimal i);
     agent_alias_id := text_input typed "TSTALIASID" ("alias_" +:+ decimal i);
     session_id := text_input typed ("session-" +:+ decimal i)
                              ("session_" +:+ decimal i) |}.

(** Lines 88-101: [models_config], for the [num_models] the number input
    returns (between 2 and 4). *)
Definition models_config (num_models : nat) (typed : string -> option string)
  : list config :=
  config_of_widgets typed <$> seq 0 num_models.

(** ** Showing the results (lines 152-168) *)

(** The calls that put something on the page, with the column they are made
    in ([with cols[idx]]). *)
Inductive ui_call : Type :=
| Subheader (col : nat) (text : string)
| SuccessBox (col : nat) (text : string)
| Markdown (col : nat) (text : string)
| Write (col : nat) (v : pyval)
| Caption (col : nat) (text : string)
| ErrorBox (col : nat) (v : pyval).

(** Code that draws: the state is the sequence of calls made so far. *)
Definition Ui (A : Type) : Type := Exc.M (list ui_call) A.

Definition emit (c : ui_call) : Ui unit :=
  Exc.modify (fun out => out ++ [c]).

(** [d[key]]: the value under [key], or a [KeyError], whose [str] is the key
    in quotes. *)
Definition getitem (d : pydict) (key : string) : exn + pyval :=
  match d !! key with
  | Some v => inr v
  | None => inl (Exn ("'" +:+ key +:+ "'"))
  end.

(** Truthiness of a value and of a dictionary. *)
Definition val_truthy (v : pyval) : bool :=
  match v with
  | VBool b => b
  | VStr s => PyStr.truthy s
  end.

Definition dict_truthy (d : pydict) : bool := negb (bool_decide (d = ∅)).

(** A value as an f-string formats it. *)
Definition val_str (v : pyval) : string :=
  match v with
  | VBool true => "True"
  | VBool false => "False"
  | VStr s => s
  end.

(** Lines 155-168, the body of the loop for the config at position [idx]. *)
Definition show_result (responses : gmap string pydict) (idx : nat)
    (config : config) : Ui unit :=
  _ <- emit (Subheader idx (name config)) ;;
  match responses !! name config with
  | Some result =>
      if dict_truthy result then
        success <- Exc.lift (getitem result "success") ;;
        if val_truthy success then
          _ <- emit (SuccessBox idx "✅ Response received") ;;
          _ <- emit (Markdown idx "**Response:**") ;;
          response <- Exc.lift (getitem result "response") ;;
          _ <- emit (Write idx response) ;;
          timestamp <- Exc.lift (getitem result "timestamp") ;;
          emit (Caption idx ("Timestamp: " +:+ val_str timestamp))
        else
          _ <- emit (ErrorBox idx (VStr "❌ Error occurred")) ;;
          error <- Exc.lift (getitem result "error") ;;
          _ <- emit (ErrorBox idx error) ;;
          timestamp <- Exc.lift (getitem result "timestamp") ;;
          emit (Caption idx ("Timestamp: " +:+ val_str timestamp))
      else Exc.ret tt
  | None => Exc.ret tt
  end.

(** Line 154, [for idx, config in enumerate(models_config)], from position
    [idx] on. *)
Fixpoint show_results_from (responses : gmap string pydict) (idx : nat)
    (models_config : list config) : Ui unit :=
  match models_config with
  | [] => Exc.ret tt
  | config :: rest =>
      _ <- show_result responses idx config ;;
      show_results_from responses (S idx) rest
  end.

Definition show_results (responses : gmap string pydict)
    (models_config : list config) : Ui unit :=
  show_results_from responses 0 models_config.

(** What a column shows for a result with the fields of
    [has_result_fields]. *)
Definition column_calls (idx : nat) (model_name : string) (ok : bool)
    (text timestamp : string) : list ui_call :=
  Subheader idx model_name ::
  if ok then
    [SuccessBox idx "✅ Response received"; Markdown idx "**Response:**";
     Write idx (VStr text); Caption idx ("Timestamp: " +:+ timestamp)]
  else
    [ErrorBox idx (VStr "❌ Error occurred"); ErrorBox idx (VStr text);
     Caption idx ("Timestamp: " +:+ timestamp)].

(** ** The comparison summary (lines 171-185) *)

(** A Python [dict] keeps its keys in the order in which they were first
    inserted, and [.items()] goes through them in that order. [dict_set] is
    [d[key] = value] on the items of [d]: a key already there keeps its
    place. *)
Fixpoint dict_set (key : string) (value : pydict)
    (items : list (string * pydict)) : list (string * pydict) :=
  match items with
  | [] => [(key, value)]
  | (k, v) :: rest =>
      if decide (k = key) then (key, value) :: rest
      else (k, v) :: dict_set key value rest
  end.

(** The items of [st.session_state.responses] once the collection loop,
    started on the empty mapping, has gone through [completed]. *)
Definition collected_items (completed : list future)
  : list (string * pydict) :=
  foldl (fun items f => dict_set (fut_name f) (entry f) items) [] completed.

(** A cell of the column [Response Length]: a length or the text [N/A]. *)
Inductive length_cell : Type :=
| LengthOf (n : nat)
| NotAvailable.

(** One dictionary of [comparison_data] (lines 178-183). *)
Record summary_row : Type := SummaryRow {
  row_model : string;
  row_status : string;
  row_length : length_cell;
  row_timestamp : pyval
}.

Section Summary.

(** [len] of a [str]. *)
Variable str_len : string -> nat.

(** [len(v)]: the length of a string; a boolean has none. *)
Definition len (v : pyval) : exn + nat :=
  match v with
  | VStr s => inr (str_len s)
  | VBool _ => inl (Exn "object of type 'bool' has no len()")
  end.

(** Code that builds the table: the state is [comparison_data]. *)
Definition Table (A : Type) : Type := Exc.M (list summary_row) A.

(** Lines 178-183, the body of the loop. *)
Definition append_summary_row (model_name : string) (result : pydict)
  : Table unit :=
  success <- Exc.lift (getitem result "success") ;;
  let status := if val_truthy success then "✅ Success" else "❌ Failed" in
  success' <- Exc.lift (getitem result "success") ;;
  response_length <-
    (if val_truthy success' then
       n <- Exc.lift (len (default (VStr "") (result !! "response"))) ;;
       Exc.ret (LengthOf n)
     else Exc.ret NotAvailable) ;;
  timestamp <- Exc.lift (getitem result "timestamp") ;;
  Exc.modify (fun comparison_data =>
                comparison_data ++
                [{| row_model := model_name; row_status := status;
                    row_length := response_length;
                    row_timestamp := timestamp |}]).

(** Line 177, [for model_name, result in responses.items()]. *)
Fixpoint for_item (items : list (string * pydict)) : Table unit :=
  match items with
  | [] => Exc.ret tt
  | (model_name, result) :: rest =>
      _ <- append_summary_row model_name result ;;
      for_item rest
  end.

(** Lines 171-185: the rows given to [st.table], or [None] when the mapping
    is empty and no table is drawn. *)
Definition comparison_summary (items : list (string * pydict))
  : exn + option (list summary_row) :=
  match items with
  | [] => inr None
  | _ :: _ =>
      match for_item items [] with
      | (inr _, comparison_data) => inr (Some comparison_data)
      | (inl e, _) => inl e
      end
  end.

End Summary.

(** The row of a result with the fields of [has_result_fields]. *)
Definition row_of_fields (str_len : string -> nat) (model_name : string)
    (ok : bool) (text timestamp : string) : summary_row :=
  {| row_model := model_name;
     row_status := if ok then "✅ Success" else "❌ Failed";
     row_length := if ok then LengthOf (str_len text) else NotAvailable;
     row_timestamp := VStr timestamp |}.

(** [len] of the text a string of UTF-8 bytes stands for: the number of its
    code points, that is of its bytes other than the continuation bytes
    [10xxxxxx]. *)
Definition is_continuation_byte (a : ascii) : bool :=
  match a with
  | Ascii _ _ _ _ _ _ b6 b7 => b7 && negb b6
  end.

Fixpoint code_points (s : string) : nat :=
  match s with
  | EmptyString => 0
  | String a rest =>
      (if is_continuation_byte a then 0 else 1) + code_points rest
  end.

(** * Properties *)

(** ** Python strings *)

Module PyStrFacts.

Lemma truthy_true_iff (s : string) : PyStr.truthy s = true <-> s <> "".
Proof. destruct s; simpl; split; congruence. Qed.

Lemma truthy_false_iff (s : string) : PyStr.truthy s = false <-> s = "".
Proof. destruct s; simpl; split; congruence. Qed.

Lemma app_empty_r (s : string) : s +:+ "" = s.
Proof.
  induction s as [|a s IH]; [reflexivity|].
  change (String a (s +:+ "") = String a s). by rewrite IH.
Qed.

Lemma app_assoc (a b c : string) : (a +:+ b) +:+ c = a +:+ b +:+ c.
Proof.
  induction a as [|x a IH]; [reflexivity|].
  change (String x ((a +:+ b) +:+ c) = String x (a +:+ b +:+ c)).
  by rewrite IH.
Qed.

(** Appending a non-empty suffix changes a string. *)
Lemma app_ne_self (s t : string) : t <> "" -> s +:+ t <> s.
Proof.
  intros Ht Heq. apply Ht.
  apply (String.app_inj s). by rewrite app_empty_r.
Qed.

Lemma prefix_app (s t : string) : String.prefix s (s +:+ t) = true.
Proof.
  induction s as [|a s IH]; [by destruct t|].
  change (String.prefix (String a s) (String a (s +:+ t)) = true).
  simpl. destruct (ascii_dec a a); [exact IH | congruence].
Qed.

End PyStrFacts.

Ltac exc_unfold :=
  unfold Exc.bind, Exc.ret, Exc.raise, Exc.lift, Exc.try_except, Exc.modify in *.

(** ** Result dictionaries *)

Lemma success_result_lookup (r m t : string) :
  success_result r m t !! "success" = Some (VBool true) /\
  success_result r m t !! "response" = Some (VStr r) /\
  success_result r m t !! "model" = Some (VStr m) /\
  success_result r m t !! "timestamp" = Some (VStr t) /\
  success_result r m t !! "error" = None.
Proof. unfold success_result. repeat split; by simplify_map_eq. Qed.

Lemma failure_result_lookup (e m t : string) :
  failure_result e m t !! "success" = Some (VBool false) /\
  failure_result e m t !! "error" = Some (VStr e) /\
  failure_result e m t !! "model" = Some (VStr m) /\
  failure_result e m t !! "timestamp" = Some (VStr t) /\
  failure_result e m t !! "response" = None.
Proof. unfold failure_result. repeat split; by simplify_map_eq. Qed.

Lemma success_result_fields (r m t : string) :
  has_result_fields (success_result r m t).
Proof.
  destruct (success_result_lookup r m t) as (? & ? & ? & ? & _).
  by exists true, m, t, r.
Qed.

Lemma failure_result_fields (e m t : string) :
  has_result_fields (failure_result e m t).
Proof.
  destruct (failure_result_lookup e m t) as (? & ? & ? & ? & _).
  by exists false, m, t, e.
Qed.

Lemma success_ne_failure (r m t e m' t' : string) :
  success_result r m t <> failure_result e m' t'.
Proof.
  intros Heq.
  pose proof (proj1 (success_result_lookup r m t)) as Hs.
  pose proof (proj1 (failure_result_lookup e m' t')) as Hf.
  rewrite Heq in Hs. congruence.
Qed.

Lemma success_result_inj (r r' m m' t t' : string) :
  success_result r m t = success_result r' m' t' -> r = r' /\ m = m' /\ t = t'.
Proof.
  intros Heq.
  destruct (success_result_lookup r m t) as (_ & Hr & Hm & Ht & _).
  destruct (success_result_lookup r' m' t') as (_ & Hr' & Hm' & Ht' & _).
  rewrite Heq in Hr, Hm, Ht. repeat split; congruence.
Qed.

(** ** The annotation of error messages *)

Lemma stop_sequences_hint_nonempty : stop_sequences_hint <> "".
Proof. discriminate. Qed.

Lemma annotate_marked (msg : string) :
  PyStr.contains "stopSequences" msg = true ->
  annotate msg = msg +:+ stop_sequences_hint.
Proof. unfold annotate. by intros ->. Qed.

Lemma annotate_unmarked (msg : string) :
  PyStr.contains "stopSequences" msg = false -> annotate msg = msg.
Proof. unfold annotate. by intros ->. Qed.

Lemma annotate_iff (msg : string) :
  annotate msg = msg +:+ stop_sequences_hint <->
  PyStr.contains "stopSequences" msg = true.
Proof.
  split; [|apply annotate_marked].
  unfold annotate. destruct (PyStr.contains _ msg); [done|].
  intros Heq. symmetry in Heq.
  by apply PyStrFacts.app_ne_self in Heq; [|apply stop_sequences_hint_nonempty].
Qed.

(** The annotated message starts with the original one. *)
Lemma annotate_prefix (msg : string) : String.prefix msg (annotate msg) = true.
Proof.
  unfold annotate. destruct (PyStr.contains _ msg).
  - apply PyStrFacts.prefix_app.
  - rewrite <- (PyStrFacts.app_empty_r msg) at 2. apply PyStrFacts.prefix_app.
Qed.

(** ** The single-agent invocation *)

Section InvocationFacts.

Variable utf8_decode : list Byte.byte -> exn + string.

Implicit Types (w : task_world) (log : list request) (items : list stream_item).

Lemma on_event_state (acc : string) (ev : event) log :
  (on_event utf8_decode acc ev log).2 = log.
Proof.
  unfold on_event. destruct (ev_chunk ev) as [[[b|]]|]; try done.
  exc_unfold. simpl. by destruct (utf8_decode b).
Qed.

Lemma for_event_state items (acc : string) log :
  (for_event utf8_decode items acc log).2 = log.
Proof.
  revert acc. induction items as [|[ev|e] rest IH]; intros acc; try done.
  simpl. unfold Exc.bind.
  pose proof (on_event_state acc ev log) as Hs.
  destruct (on_event utf8_decode acc ev log) as [[e|t] s]; simpl in Hs; subst s.
  - done.
  - apply IH.
Qed.

(** Delivery-order concatenation: a stream delivered to its end whose
    payloads all decode leaves the accumulated text followed by the decoded
    payloads, first to last. *)
Lemma for_event_join items (texts : list string) (acc : string) log :
  faultless items ->
  Forall2 (fun b t => utf8_decode b = inr t) (payloads items) texts ->
  for_event utf8_decode items acc log = (inr (acc +:+ join texts), log).
Proof.
  intros Hf. revert texts acc.
  induction Hf as [|it rest [ev ->] _ IH]; intros texts acc Hd.
  - apply Forall2_nil_inv_l in Hd as ->. simpl.
    by rewrite PyStrFacts.app_empty_r.
  - simpl in *. unfold on_event, Exc.bind.
    destruct (ev_chunk ev) as [[[b|]]|]; simpl in *; [|by apply IH..].
    apply Forall2_cons_inv_l in Hd as (t & texts' & Ht & Hd & ->).
    unfold Exc.lift, Exc.ret. rewrite Ht.
    rewrite (IH _ _ Hd). simpl. by rewrite PyStrFacts.app_assoc.
Qed.

(** [invoke_agent] is its [try] body when that returns, and the failure
    dictionary of the [except] clause when that raises. *)
Lemma invoke_agent_unfold w (a al s p m r : string) log :
  invoke_agent utf8_decode w a al s p m r log =
  match invoke_agent_try utf8_decode w a al s p m r log with
  | (inr d, log') => (inr d, log')
  | (inl e, log') =>
      (inr (failure_result (annotate (exn_str e)) m (now w)), log')
  end.
Proof. reflexivity. Qed.


(** What the [try] body returns is a success dictionary. *)
Lemma invoke_agent_try_success w (a al s p m r : string) log (d : pydict) :
  (invoke_agent_try utf8_decode w a al s p m r log).1 = inr d ->
  exists text, d = success_result (response_or_placeholder text) m (now w).
Proof.
  unfold invoke_agent_try, get_bedrock_client, client_invoke_agent.
  exc_unfold.
  destruct (boto3_client w _ r) as [e|c]; [done|].
  destruct (c _) as [e|resp]; [done|].
  destruct (completion resp) as [items|].
  - destruct (for_event utf8_decode items "" _) as [[e|t] log']; [done|].
    simpl. intros [= <-]. eauto.
  - simpl. intros [= <-]. eauto.
Qed.

(** Every result of [invoke_agent] is a success dictionary or a failure
    dictionary, for the model name it was given and the clock of its
    world. *)
Lemma invoke_agent_result w (a al s p m r : string) log :
  (exists text,
      (invoke_agent utf8_decode w a al s p m r log).1 =
      inr (success_result (response_or_placeholder text) m (now w))) \/
  (exists e,
      (invoke_agent_try utf8_decode w a al s p m r log).1 = inl e /\
      (invoke_agent utf8_decode w a al s p m r log).1 =
      inr (failure_result (annotate (exn_str e)) m (now w))).
Proof.
  rewrite invoke_agent_unfold.
  pose proof (invoke_agent_try_success w a al s p m r log) as Hs.
  destruct (invoke_agent_try _ _ _ _ _ _ _ _ _) as [[e|d] log']; simpl in *.
  - right. eauto.
  - left. destruct (Hs d eq_refl) as [text ->]. eauto.
Qed.

(** The remote service is asked at most once per invocation: the log
    grows by the one request built from the arguments, or not at all when
    no client could be made. *)
Lemma invoke_agent_log w (a al s p m r : string) log :
  let req := {| agentId := a; agentAliasId := al; sessionId := s;
                inputText := p |} in
  (invoke_agent utf8_decode w a al s p m r log).2 =
  match boto3_client w "bedrock-agent-runtime" r with
  | inl _ => log
  | inr _ => log ++ [req]
  end.
Proof.
  intros req. rewrite invoke_agent_unfold.
  unfold invoke_agent_try, get_bedrock_client, client_invoke_agent.
  exc_unfold.
  destruct (boto3_client w _ r) as [e|c]; [done|].
  fold req. destruct (c req) as [e|resp]; [done|].
  destruct (completion resp) as [items|]; [|done].
  pose proof (for_event_state items "" (log ++ [req])) as Hs.
  destruct (for_event utf8_decode items "" _) as [[e|t] log']; by simpl in *; subst.
Qed.

(** The three ways the [try] body can end once a client was made. *)
Lemma invoke_agent_try_call w (a al s p m r : string) log (c : client) :
  let req := {| agentId := a; agentAliasId := al; sessionId := s;
                inputText := p |} in
  boto3_client w "bedrock-agent-runtime" r = inr c ->
  (invoke_agent_try utf8_decode w a al s p m r log).1 =
  match c req with
  | inl e => inl e
  | inr resp =>
      match completion resp with
      | Some items =>
          match (for_event utf8_decode items "" (log ++ [req])).1 with
          | inl e => inl e
          | inr text =>
              inr (success_result (response_or_placeholder text) m (now w))
          end
      | None => inr (success_result "No response received" m (now w))
      end
  end.
Proof.
  intros req Hc.
  unfold invoke_agent_try, get_bedrock_client, client_invoke_agent.
  exc_unfold. rewrite Hc. fold req.
  destruct (c req) as [e|resp]; [done|].
  destruct (completion resp) as [items|]; [|done].
  by destruct (for_event utf8_decode items "" _) as [[e|t] log'].
Qed.

End InvocationFacts.

(** ** Completion order *)

Section AsCompletedFacts.

Context {A : Type} (key : A -> nat).

Let before (x y : A) : Prop := key x <= key y.

Lemma insert_by_Permutation (x : A) (l : list A) :
  insert_by key x l ≡ₚ x :: l.
Proof.
  induction l as [|y rest IH]; simpl; [done|].
  destruct (key x <=? key y); [done|].
  rewrite IH. apply Permutation_swap.
Qed.

(** Every future submitted is yielded once. *)
Lemma sort_by_Permutation (l : list A) : sort_by key l ≡ₚ l.
Proof.
  induction l as [|x l IH]; simpl; [done|].
  by rewrite insert_by_Permutation, IH.
Qed.

Lemma insert_by_sorted (x : A) (l : list A) :
  StronglySorted before l -> StronglySorted before (insert_by key x l).
Proof.
  induction 1 as [|y rest Hs IH Hy]; simpl.
  - repeat constructor.
  - destruct (Nat.leb_spec (key x) (key y)) as [Hle|Hgt].
    + constructor; [by constructor|].
      constructor; [done|].
      eapply Forall_impl; [exact Hy|]. unfold before. simpl. lia.
    + constructor; [done|].
      rewrite insert_by_Permutation. constructor; [|done].
      unfold before. lia.
Qed.

Lemma sort_by_sorted (l : list A) : StronglySorted before (sort_by key l).
Proof.
  induction l as [|x l IH]; simpl; [constructor|by apply insert_by_sorted].
Qed.

(** Inserting in front of a list none of whose elements is earlier. *)
Lemma insert_by_head (x : A) (l : list A) :
  Forall (before x) l -> insert_by key x l = x :: l.
Proof.
  destruct 1 as [|y rest Hy _]; simpl; [done|].
  unfold before in Hy. by apply Nat.leb_le in Hy as ->.
Qed.

Section Filter.

Context (P : A -> Prop) `{!forall x, Decision (P x)}.

Lemma filter_insert_by (x : A) (l : list A) :
  StronglySorted before l ->
  filter P (insert_by key x l) =
  if decide (P x) then insert_by key x (filter P l) else filter P l.
Proof.
  induction 1 as [|y rest Hs IH Hy]; simpl.
  - rewrite filter_cons, filter_nil. by destruct (decide (P x)).
  - destruct (Nat.leb_spec (key x) (key y)) as [Hle|Hgt].
    + rewrite (filter_cons _ x).
      destruct (decide (P x)) as [Hx|Hx]; [|done].
      symmetry. apply insert_by_head.
      assert (Forall (before x) (y :: rest)) as Hall.
      { constructor; [done|].
        eapply Forall_impl; [exact Hy|]. unfold before. simpl. lia. }
      apply Forall_forall. intros z [_ Hz]%list_elem_of_filter.
      by apply (proj1 (Forall_forall _ _) Hall).
    + rewrite (filter_cons _ y), IH, (filter_cons _ y).
      destruct (decide (P x)) as [Hx|Hx], (decide (P y)) as [Hy'|Hy'];
        try done.
      simpl. by apply Nat.leb_gt in Hgt as ->.
Qed.

(** Futures that complete at the same instant keep their submission
    order, so the order of the futures of a given kind among themselves
    does not depend on the others. *)
Lemma filter_sort_by (l : list A) :
  filter P (sort_by key l) = sort_by key (filter P l).
Proof.
  induction l as [|x l IH]; simpl; [done|].
  rewrite filter_insert_by by apply sort_by_sorted.
  rewrite filter_cons, IH. by destruct (decide (P x)).
Qed.

End Filter.

End AsCompletedFacts.

(** ** The collection loop *)

Lemma set_responses_same (p : page) : set_responses (responses p) p = p.
Proof. by destruct p. Qed.

Lemma collect_run (f : future) (p : page) :
  collect f p = (inr tt, set_responses (record (responses p) f) p).
Proof.
  unfold collect, record, entry, fut_name, store_response. exc_unfold. simpl.
  by destruct (fut_result f).
Qed.

(** The loop never raises, and stores one dictionary per future it is
    given, in the order given. *)
Lemma for_future_run (completed : list future) (p : page) :
  for_future completed p =
  (inr tt, set_responses (foldl record (responses p) completed) p).
Proof.
  revert p. induction completed as [|f rest IH]; intros p; simpl.
  - by rewrite set_responses_same.
  - unfold Exc.bind. rewrite collect_run, IH. by destruct p.
Qed.

Lemma lookup_foldl_record (k : string) (m : gmap string pydict)
    (futs : list future) :
  foldl record m futs !! k =
  match last (filter (fun f => fut_name f = k) futs) with
  | Some f => Some (entry f)
  | None => m !! k
  end.
Proof.
  revert m. induction futs as [|f rest IH]; intros m; simpl; [done|].
  rewrite IH, filter_cons. unfold record.
  destruct (decide (fut_name f = k)) as [<-|Hne].
  - rewrite last_cons, lookup_insert_eq.
    by destruct (last (filter _ rest)).
  - by rewrite lookup_insert_ne.
Qed.

Lemma dom_foldl_record (m : gmap string pydict) (futs : list future) :
  dom (foldl record m futs) = dom m ∪ list_to_set (fut_name <$> futs).
Proof.
  revert m. induction futs as [|f rest IH]; intros m; simpl.
  - set_solver.
  - rewrite IH. unfold record at 1. rewrite dom_insert_L. set_solver.
Qed.

(** Whatever holds of the dictionary of every future and of every entry
    already there holds of every entry after the loop. *)
Lemma foldl_record_Forall (P : string -> pydict -> Prop)
    (m : gmap string pydict) (futs : list future) :
  map_Forall P m ->
  Forall (fun f => P (fut_name f) (entry f)) futs ->
  map_Forall P (foldl record m futs).
Proof.
  intros Hm Hf. revert m Hm.
  induction Hf as [|f rest Hf _ IH]; intros m Hm; simpl; [done|].
  apply IH. unfold record. by apply map_Forall_insert_2.
Qed.

Lemma size_list_to_set_remove_dups (l : list string) :
  size (list_to_set l : gset string) = length (remove_dups l).
Proof.
  rewrite <- (size_list_to_set (C:=gset string) (remove_dups l))
    by apply NoDup_remove_dups.
  f_equal. apply set_eq. intros x.
  by rewrite !elem_of_list_to_set, elem_of_remove_dups.
Qed.

Lemma remove_dups_NoDup (l : list string) : NoDup l -> remove_dups l = l.
Proof.
  induction 1 as [|x l Hx _ IH]; simpl; [done|].
  destruct (decide_rel elem_of x l); [done|]. by rewrite IH.
Qed.

(** ** The handlers *)

Lemma agent_ids_check (cfgs : list config) :
  forallb (fun c => PyStr.truthy (agent_id c)) cfgs = true <->
  agent_ids_configured cfgs.
Proof.
  unfold agent_ids_configured. induction cfgs as [|c cfgs IH]; simpl.
  - split; [constructor|done].
  - rewrite andb_true_iff, IH, PyStrFacts.truthy_true_iff, Forall_cons. tauto.
Qed.

Section ScriptFacts.

Variable utf8_decode : list Byte.byte -> exn + string.

Implicit Types (cfgs : list config) (env : nat -> future_env) (p : page).

Lemma submit_name (region prompt : string) (fe : future_env) (c : config) :
  fut_name (submit utf8_decode region prompt fe c) = name c.
Proof. reflexivity. Qed.

Lemma submit_all_names (region prompt : string) env cfgs :
  fut_name <$> submit_all utf8_decode region prompt env cfgs = name <$> cfgs.
Proof.
  unfold submit_all. rewrite fmap_imap.
  rewrite <- (imap_const name). by apply imap_ext.
Qed.

Lemma submit_all_length (region prompt : string) env cfgs :
  length (submit_all utf8_decode region prompt env cfgs) = length cfgs.
Proof. unfold submit_all. apply length_imap. Qed.

(** A rejected batch: one message, nothing submitted, the mapping left as
    it was. *)
Lemma compare_rejected (region prompt : string) cfgs env p :
  ~ agent_ids_configured cfgs ->
  compare utf8_decode region prompt cfgs env p =
  (inr Rejected,
   st_error "Please configure all Agent IDs before comparing." p).
Proof.
  intros Hbad. unfold compare.
  destruct (forallb _ cfgs) eqn:Hall; [|done].
  by apply agent_ids_check in Hall.
Qed.

(** An accepted batch: the mapping is rebuilt from the empty one by the
    loop over the futures in completion order. *)
Lemma compare_accepted (region prompt : string) cfgs env p :
  agent_ids_configured cfgs ->
  let futures := submit_all utf8_decode region prompt env cfgs in
  (compare utf8_decode region prompt cfgs env p).2 =
  {| responses := foldl record ∅ (as_completed futures);
     errors := errors p |}.
Proof.
  intros Hok futures. unfold compare.
  apply agent_ids_check in Hok as ->. simpl.
  destruct cfgs as [|c cfgs]; [done|].
  unfold thread_pool_executor. exc_unfold. simpl. fold futures.
  by rewrite for_future_run.
Qed.

(** With at least one config it ends normally, with every future
    submitted. *)
Lemma compare_accepted_end (region prompt : string) cfgs env p :
  agent_ids_configured cfgs ->
  cfgs <> [] ->
  (compare utf8_decode region prompt cfgs env p).1 =
  inr (Compared (submit_all utf8_decode region prompt env cfgs)).
Proof.
  intros Hok Hne. unfold compare.
  apply agent_ids_check in Hok as ->. simpl.
  destruct cfgs as [|c cfgs]; [done|].
  unfold thread_pool_executor. exc_unfold. simpl.
  by rewrite for_future_run.
Qed.

Lemma handlers_clear (compare_button : bool) (region prompt : string)
    cfgs env p :
  handlers utf8_decode true compare_button region prompt cfgs env p =
  (inr Rerun, set_responses ∅ p).
Proof. reflexivity. Qed.

Lemma handlers_compare (region prompt : string) cfgs env p :
  prompt <> "" ->
  handlers utf8_decode false true region prompt cfgs env p =
  compare utf8_decode region prompt cfgs env p.
Proof.
  intros Hp%PyStrFacts.truthy_true_iff. unfold handlers. simpl. by rewrite Hp.
Qed.

Lemma handlers_idle (compare_button : bool) (region prompt : string)
    cfgs env p :
  compare_button = false \/ prompt = "" ->
  handlers utf8_decode false compare_button region prompt cfgs env p =
  (inr Idle, p).
Proof.
  unfold handlers. intros [->| ->]; [done|].
  by rewrite andb_false_r.
Qed.


(** The mapping an accepted batch leaves. *)
Lemma handlers_accepted (region prompt : string) cfgs env p :
  passes_validation prompt cfgs ->
  let futures := submit_all utf8_decode region prompt env cfgs in
  (handlers utf8_decode false true region prompt cfgs env p).2 =
  {| responses := foldl record ∅ (as_completed futures);
     errors := errors p |}.
Proof.
  intros [Hp Hok] futures.
  rewrite handlers_compare by done. by apply compare_accepted.
Qed.

(** The dictionary stored for a future: what [invoke_agent] returned, or
    the failure dictionary the main thread builds. *)
Lemma submit_entry (region prompt : string) (fe : future_env) (c : config) :
  let f := submit utf8_decode region prompt fe c in
  (exists text w,
      fate fe = Returns w /\
      entry f = success_result (response_or_placeholder text) (name c) (now w))
  \/ (exists e w,
      fate fe = Returns w /\
      (invoke_agent_try utf8_decode w (agent_id c) (agent_alias_id c)
         (session_id c) prompt (name c) region []).1 = inl e /\
      entry f = failure_result (annotate (exn_str e)) (name c) (now w))
  \/ (exists e sent,
      fate fe = Escapes e sent /\
      entry f = failure_result (exn_str e) (name c) (main_now fe)).
Proof.
  intros f. subst f. unfold entry, submit, fut_name. simpl.
  destruct (fate fe) as [w|e sent]; simpl.
  - destruct (invoke_agent_result utf8_decode w (agent_id c)
                (agent_alias_id c) (session_id c) prompt (name c) region [])
      as [[text ->]|(e & He & ->)].
    + left. eauto.
    + right; left. eauto 10.
  - right; right. eauto.
Qed.

Lemma submit_all_Forall (P : future -> Prop) (region prompt : string) env cfgs :
  (forall fe c, c ∈ cfgs -> P (submit utf8_decode region prompt fe c)) ->
  Forall P (submit_all utf8_decode region prompt env cfgs).
Proof.
  intros HP. apply Forall_forall. intros f Hf.
  apply list_elem_of_lookup in Hf as [i Hi].
  unfold submit_all in Hi. rewrite list_lookup_imap in Hi.
  destruct (cfgs !! i) as [c|] eqn:Hc; [|done].
  simpl in Hi. injection Hi as <-.
  apply HP. by eapply list_elem_of_lookup_2.
Qed.

End ScriptFacts.

(** ** The size of the result mapping *)

Section ResultMapping.

Variable utf8_decode : list Byte.byte -> exn + string.

Implicit Types (cfgs : list config) (env : nat -> future_env) (p : page).

(** The keys of the mapping an accepted batch leaves are the names of its
    configs. *)
Lemma accepted_dom (region prompt : string) cfgs env p :
  passes_validation prompt cfgs ->
  dom (responses (handlers utf8_decode false true region prompt cfgs env p).2)
  = list_to_set (name <$> cfgs).
Proof.
  intros Hv. rewrite handlers_accepted by done. simpl.
  rewrite dom_foldl_record, dom_empty_L, (left_id_L ∅ (∪)).
  unfold as_completed. rewrite sort_by_Permutation.
  by rewrite submit_all_names.
Qed.

Lemma accepted_keys (region prompt : string) cfgs env p (k : string) :
  passes_validation prompt cfgs ->
  is_Some (responses
             (handlers utf8_decode false true region prompt cfgs env p).2 !! k)
  <-> k ∈ name <$> cfgs.
Proof.
  intros Hv.
  by rewrite <- elem_of_dom, accepted_dom, elem_of_list_to_set.
Qed.

(** Every entry of the mapping an accepted batch leaves is the dictionary
    stored for one of its futures, under that future's name. *)
Lemma accepted_Forall (P : string -> pydict -> Prop)
    (region prompt : string) cfgs env p :
  passes_validation prompt cfgs ->
  (forall fe c, c ∈ cfgs ->
     P (name c) (entry (submit utf8_decode region prompt fe c))) ->
  map_Forall P
    (responses (handlers utf8_decode false true region prompt cfgs env p).2).
Proof.
  intros Hv HP. rewrite handlers_accepted by done. simpl.
  apply foldl_record_Forall; [apply map_Forall_empty|].
  unfold as_completed. rewrite sort_by_Permutation.
  apply submit_all_Forall. intros fe c Hc. by apply HP.
Qed.

End ResultMapping.

(** C1, as stated, fails: two configs that pass the checks of lines 116-117
    and share a name leave a mapping of one entry. *)
Lemma result_count_counterexample :
  ~ (forall (utf8_decode : list Byte.byte -> exn + string)
       (region prompt : string) (cfgs : list config)
       (env : nat -> future_env) (p : page),
        passes_validation prompt cfgs ->
        size (responses
                (handlers utf8_decode false true region prompt cfgs env p).2)
        = length cfgs).
Proof.
  intros H.
  specialize (H Scenario.ascii_decode "us-west-2" "hello"
                Scenario.same_name_configs Scenario.env Scenario.empty_page).
  assert (passes_validation "hello" Scenario.same_name_configs) as Hv
    by (vm_compute; split; [discriminate | repeat constructor; discriminate]).
  specialize (H Hv). vm_compute in H. discriminate.
Qed.

(** C1, amended: a batch that passes the checks the script makes (prompt and
    every agent id non-empty) leaves exactly one result per distinct config
    name. The keys of the mapping are the names of the configs, its size is
    the number of distinct names, and it is the number of configs when the
    names are pairwise distinct. *)
Theorem result_per_distinct_name
    (utf8_decode : list Byte.byte -> exn + string)
    (region prompt : string) (cfgs : list config)
    (env : nat -> future_env) (p : page) :
  passes_validation prompt cfgs ->
  let m := responses
             (handlers utf8_decode false true region prompt cfgs env p).2 in
  (forall k, is_Some (m !! k) <-> k ∈ name <$> cfgs) /\
  size m = length (remove_dups (name <$> cfgs)) /\
  (NoDup (name <$> cfgs) -> size m = length cfgs).
Proof.
  intros Hv m.
  pose proof (accepted_dom utf8_decode region prompt cfgs env p Hv) as Hdom.
  fold m in Hdom.
  assert (size m = length (remove_dups (name <$> cfgs))) as Hsize.
  { rewrite <- size_dom, Hdom. apply size_list_to_set_remove_dups. }
  split; [|split; [done|]].
  - intros k. by apply accepted_keys.
  - intros Hnd. by rewrite Hsize, remove_dups_NoDup, length_fmap.
Qed.

Lemma result_per_distinct_name_witness :
  let m := responses
             (handlers Scenario.ascii_decode false true "us-west-2" "hello"
                Scenario.configs Scenario.env Scenario.empty_page).2 in
  (forall k, is_Some (m !! k) <-> k ∈ name <$> Scenario.configs) /\
  size m = 2 /\
  (NoDup (name <$> Scenario.configs) -> size m = 2).
Proof.
  apply (result_per_distinct_name Scenario.ascii_decode "us-west-2" "hello"
           Scenario.configs Scenario.env Scenario.empty_page).
  split; [discriminate | repeat constructor; discriminate].
Defined.

(** ** The entry of one config *)

Section EntryFacts.

Variable utf8_decode : list Byte.byte -> exn + string.

Implicit Types (cfgs : list config) (env : nat -> future_env) (p : page).

Lemma submit_all_cons (region prompt : string) env (c : config) cfgs :
  submit_all utf8_decode region prompt env (c :: cfgs) =
  submit utf8_decode region prompt (env 0) c
    :: submit_all utf8_decode region prompt (env ∘ S) cfgs.
Proof. reflexivity. Qed.


Lemma submit_all_filter_none (region prompt k : string) env cfgs :
  (forall j c, cfgs !! j = Some c -> name c <> k) ->
  filter (fun f => fut_name f = k)
         (submit_all utf8_decode region prompt env cfgs) = [].
Proof.
  revert env. induction cfgs as [|c cfgs IH]; intros env Hk; [done|].
  rewrite submit_all_cons, filter_cons_False.
  - apply IH. intros j c' Hj. by apply (Hk (S j)).
  - rewrite submit_name. by apply (Hk 0).
Qed.

(** The futures under a name no other config bears: the one future of
    that config. *)
Lemma submit_all_filter_unique (region prompt : string) env cfgs
    (i : nat) (c : config) :
  cfgs !! i = Some c ->
  (forall j c', cfgs !! j = Some c' -> name c' = name c -> j = i) ->
  filter (fun f => fut_name f = name c)
         (submit_all utf8_decode region prompt env cfgs) =
  [submit utf8_decode region prompt (env i) c].
Proof.
  revert env i. induction cfgs as [|c0 cfgs IH]; intros env i Hi Hu; [done|].
  rewrite submit_all_cons. destruct i as [|i]; simpl in Hi.
  - injection Hi as ->. rewrite filter_cons_True by done.
    f_equal. apply submit_all_filter_none.
    intros j c' Hj Hn. by specialize (Hu (S j) c' Hj Hn).
  - rewrite filter_cons_False.
    + apply (IH (env ∘ S) i Hi).
      intros j c' Hj Hn. specialize (Hu (S j) c' Hj Hn). lia.
    + rewrite submit_name. intros Hn. by specialize (Hu 0 c0 eq_refl Hn).
Qed.


(** The entry an accepted batch leaves under a name no other config
    bears is the dictionary stored for the future of that config. *)
Lemma accepted_lookup_unique (region prompt : string) cfgs env p
    (i : nat) (c : config) :
  passes_validation prompt cfgs ->
  cfgs !! i = Some c ->
  (forall j c', cfgs !! j = Some c' -> name c' = name c -> j = i) ->
  responses (handlers utf8_decode false true region prompt cfgs env p).2
    !! name c
  = Some (entry (submit utf8_decode region prompt (env i) c)).
Proof.
  intros Hv Hi Hu. rewrite handlers_accepted by done. simpl.
  rewrite lookup_foldl_record. unfold as_completed.
  rewrite filter_sort_by, (submit_all_filter_unique _ _ _ _ i c) by done.
  reflexivity.
Qed.


End EntryFacts.






(** ** Validation *)

(** C3, as stated, fails twice over. A batch whose first config has an empty
    name, alias and session id goes through the checks of lines 116-117: both
    requests reach the remote service. And with an empty prompt the script
    does nothing at all: no invocation, but no validation failure either. *)
Lemma validation_counterexample :
  ~ (forall (utf8_decode : list Byte.byte -> exn + string)
       (region prompt : string) (cfgs : list config)
       (env : nat -> future_env) (p : page),
        spec_invalid prompt cfgs ->
        rejected_wholesale
          (handlers utf8_decode false true region prompt cfgs env p) p)
  /\ length (requests_sent
               (handlers Scenario.ascii_decode false true "us-west-2" "hello"
                  Scenario.incomplete_configs Scenario.env
                  Scenario.empty_page).1) = 2
  /\ handlers Scenario.ascii_decode false true "us-west-2" ""
              Scenario.configs Scenario.env Scenario.empty_page
     = (inr Idle, Scenario.empty_page).
Proof.
  split; [|split; reflexivity].
  intros H.
  specialize (H Scenario.ascii_decode "us-west-2" "hello"
                Scenario.incomplete_configs Scenario.env Scenario.empty_page).
  destruct H as [H _].
  - right; left. constructor. by left.
  - vm_compute in H. discriminate.
Qed.

(** C3, amended: what the script checks is the prompt and the agent ids. If
    the prompt is empty or some config has an empty agent id, no invocation
    is started, no request reaches the remote service and the result mapping
    is left as it was; with a non-empty prompt and a missing agent id the
    batch is rejected with the validation message. (Empty names, alias ids
    and session ids and repeated names are not checked.) *)
Theorem validation_rejects_before_invoking
    (utf8_decode : list Byte.byte -> exn + string)
    (region prompt : string) (cfgs : list config)
    (env : nat -> future_env) (p : page) :
  prompt = "" \/ ~ agent_ids_configured cfgs ->
  let out := handlers utf8_decode false true region prompt cfgs env p in
  submitted out.1 = [] /\
  requests_sent out.1 = [] /\
  responses out.2 = responses p /\
  (prompt <> "" -> rejected_wholesale out p).
Proof.
  intros Hbad out. subst out.
  destruct (decide (prompt = "")) as [->|Hp].
  - rewrite handlers_idle by auto. by repeat split.
  - destruct Hbad as [?|Hbad]; [done|].
    rewrite handlers_compare, compare_rejected by done.
    by repeat split.
Qed.

Lemma validation_rejects_before_invoking_witness :
  let out := handlers Scenario.ascii_decode false true "us-west-2" "hello"
               Scenario.unconfigured Scenario.env Scenario.empty_page in
  submitted out.1 = [] /\
  requests_sent out.1 = [] /\
  responses out.2 = responses Scenario.empty_page /\
  ("hello" <> "" -> rejected_wholesale out Scenario.empty_page).
Proof.
  apply (validation_rejects_before_invoking Scenario.ascii_decode
           "us-west-2" "hello" Scenario.unconfigured Scenario.env
           Scenario.empty_page).
  right. intros H. apply Forall_cons in H as [_ H].
  apply Forall_cons in H as [H _]. by apply H.
Defined.

(** ** The response text *)

(** C4: when the remote call succeeds and its stream is delivered to the
end, the result is a success whose response is the chunk payloads, decoded and
concatenated in delivery order, or the fixed placeholder when that text is
empty. A stream of zero chunks gives the placeholder, which is not the empty
string; the placeholder result differs from every failure result and from the
success result of any stream whose text is not the placeholder. *)
Theorem empty_stream_placeholder
    (utf8_decode : list Byte.byte -> exn + string)
    (w : task_world) (a al s p m r : string) (log : list request)
    (c : client) (resp : response) (texts : list string) :
  boto3_client w "bedrock-agent-runtime" r = inr c ->
  c {| agentId := a; agentAliasId := al; sessionId := s; inputText := p |}
  = inr resp ->
  faultless (stream_of resp) ->
  Forall2 (fun b t => utf8_decode b = inr t) (payloads (stream_of resp)) texts ->
  let result := (invoke_agent utf8_decode w a al s p m r log).1 in
  let placeholder := success_result "No response received" m (now w) in
  result = inr (success_result (response_or_placeholder (join texts)) m (now w))
  /\ (payloads (stream_of resp) = [] -> result = inr placeholder)
  /\ placeholder <> success_result "" m (now w)
  /\ (forall e m' t', placeholder <> failure_result e m' t')
  /\ (join texts <> "" -> join texts <> "No response received" ->
      result = inr (success_result (join texts) m (now w)) /\
      result <> inr placeholder).
Proof.
  intros Hc Hresp Hf Hd result placeholder.
  assert (result =
          inr (success_result (response_or_placeholder (join texts)) m (now w)))
    as Hres.
  { subst result. rewrite invoke_agent_unfold.
    pose proof (invoke_agent_try_call utf8_decode w a al s p m r log c Hc) as Ht.
    simpl in Ht. rewrite Hresp in Ht.
    destruct (invoke_agent_try _ _ _ _ _ _ _ _ _) as [[e|d] log'];
      simpl in *; unfold stream_of in *; destruct (completion resp) as [items|];
      simpl in *.
    - by rewrite (for_event_join utf8_decode items texts "" _ Hf Hd) in Ht.
    - done.
    - rewrite (for_event_join utf8_decode items texts "" _ Hf Hd) in Ht.
      exact Ht.
    - apply Forall2_nil_inv_l in Hd as ->. exact Ht. }
  split; [done|]. split; [|split; [|split]].
  - intros Hnone. rewrite Hnone in Hd.
    apply Forall2_nil_inv_l in Hd as ->. by rewrite Hres.
  - subst placeholder. by intros [? _]%success_result_inj.
  - intros e m' t'. apply success_ne_failure.
  - intros Hne Hnp. rewrite Hres. unfold response_or_placeholder.
    apply PyStrFacts.truthy_true_iff in Hne as ->. split; [done|].
    subst placeholder. intros Heq. apply (inj inr) in Heq.
    by apply success_result_inj in Heq as [? _].
Qed.

Lemma empty_stream_placeholder_witness :
  (invoke_agent Scenario.ascii_decode
     (Scenario.streaming [] "2024-05-01 10:00:00")
     "AGENT0001" "TSTALIASID" "session-0" "hello" "A" "us-west-2" []).1
  = inr (success_result "No response received" "A" "2024-05-01 10:00:00").
Proof.
  refine (proj1 (proj2 (empty_stream_placeholder Scenario.ascii_decode
            (Scenario.streaming [] "2024-05-01 10:00:00")
            "AGENT0001" "TSTALIASID" "session-0" "hello" "A" "us-west-2" []
            (fun _ => inr (Response (Some []))) (Response (Some [])) []
            eq_refl eq_refl _ _)) eq_refl).
  - constructor.
  - constructor.
Defined.

(** ** The error message *)

(** C5: when the invocation fails with an exception [e], the error text of
the failure result is the message of [e] followed by the remediation hint if
the message contains [stopSequences], and the message itself if it does not;
the two cases exclude each other. The remote service is not asked again: the
log of requests grows by at most the one request of this invocation. *)
Theorem error_message_annotation
    (utf8_decode : list Byte.byte -> exn + string)
    (w : task_world) (a al s p m r : string) (log : list request) (e : exn) :
  (invoke_agent_try utf8_decode w a al s p m r log).1 = inl e ->
  let out := invoke_agent utf8_decode w a al s p m r log in
  let req := {| agentId := a; agentAliasId := al; sessionId := s;
                inputText := p |} in
  (exists error_msg,
      out.1 = inr (failure_result error_msg m (now w)) /\
      (error_msg = exn_str e +:+ stop_sequences_hint <->
       PyStr.contains "stopSequences" (exn_str e) = true) /\
      (error_msg = exn_str e <->
       PyStr.contains "stopSequences" (exn_str e) = false))
  /\ (out.2 = log \/ out.2 = log ++ [req]).
Proof.
  intros He out req. split.
  - exists (annotate (exn_str e)). split; [|split].
    + subst out. rewrite invoke_agent_unfold.
      destruct (invoke_agent_try _ _ _ _ _ _ _ _ _) as [[e'|d] log'];
        simpl in *; congruence.
    + apply annotate_iff.
    + split; [|apply annotate_unmarked].
      intros Heq. destruct (PyStr.contains _ _) eqn:Hc; [|done].
      rewrite (annotate_marked _ Hc) in Heq.
      by apply PyStrFacts.app_ne_self in Heq; [|apply stop_sequences_hint_nonempty].
  - subst out req. rewrite invoke_agent_log.
    destruct (boto3_client w _ r); auto.
Qed.

Lemma error_message_annotation_witness :
  let out := invoke_agent Scenario.ascii_decode Scenario.world_B
               "AGENT0002" "TSTALIASID" "session-1" "hello" "B" "us-west-2" [] in
  let req := {| agentId := "AGENT0002"; agentAliasId := "TSTALIASID";
                sessionId := "session-1"; inputText := "hello" |} in
  (exists error_msg,
      out.1 = inr (failure_result error_msg "B" (now Scenario.world_B)) /\
      (error_msg = "stopSequences not supported" +:+ stop_sequences_hint <->
       PyStr.contains "stopSequences" "stopSequences not supported" = true) /\
      (error_msg = "stopSequences not supported" <->
       PyStr.contains "stopSequences" "stopSequences not supported" = false))
  /\ (out.2 = [] \/ out.2 = [] ++ [req]).
Proof.
  exact (error_message_annotation Scenario.ascii_decode Scenario.world_B
           "AGENT0002" "TSTALIASID" "session-1" "hello" "B" "us-west-2" []
           (Exn "stopSequences not supported") eq_refl).
Defined.

(** ** Isolation between agents *)




(** ** The live mapping *)

(** C8: on clear the mapping becomes the empty one; a comparison run starts
from the empty mapping, so what it leaves does not depend on the mapping it
found and has no key but the names of the configs of this run. *)
Theorem responses_replaced
    (utf8_decode : list Byte.byte -> exn + string)
    (region prompt : string) (cfgs : list config)
    (env : nat -> future_env) (p : page) :
  (forall compare_button,
      responses (handlers utf8_decode true compare_button region prompt
                          cfgs env p).2 = ∅)
  /\ (passes_validation prompt cfgs ->
      (forall p',
          responses (handlers utf8_decode false true region prompt
                              cfgs env p).2
          = responses (handlers utf8_decode false true region prompt
                                cfgs env p').2)
      /\ (forall k,
            is_Some (responses (handlers utf8_decode false true region prompt
                                         cfgs env p).2 !! k) ->
            k ∈ name <$> cfgs)).
Proof.
  split; [done|]. intros Hv. split.
  - intros p'. by rewrite !handlers_accepted by done.
  - intros k Hk.
    by apply (accepted_keys utf8_decode region prompt cfgs env p k Hv).
Qed.

Lemma responses_replaced_witness :
  let stale : page :=
    {| responses := {[ "Old model" := failure_result "timed out" "Old model"
                                        "2024-04-30 09:00:00" ]};
       errors := [] |} in
  (forall p',
      responses (handlers Scenario.ascii_decode false true "us-west-2" "hello"
                          Scenario.configs Scenario.env stale).2
      = responses (handlers Scenario.ascii_decode false true "us-west-2"
                            "hello" Scenario.configs Scenario.env p').2)
  /\ (forall k,
        is_Some (responses (handlers Scenario.ascii_decode false true
                              "us-west-2" "hello" Scenario.configs
                              Scenario.env stale).2 !! k) ->
        k ∈ name <$> Scenario.configs).
Proof.
  intros stale.
  apply (proj2 (responses_replaced Scenario.ascii_decode "us-west-2" "hello"
                  Scenario.configs Scenario.env stale)).
  split; [discriminate | repeat constructor; discriminate].
Defined.

(** ** The fields of a result *)

Lemma entry_fields (utf8_decode : list Byte.byte -> exn + string)
    (region prompt : string) (fe : future_env) (c : config) :
  has_result_fields (entry (submit utf8_decode region prompt fe c)) /\
  entry (submit utf8_decode region prompt fe c) !! "model" = Some (VStr (name c)).
Proof.
  destruct (submit_entry utf8_decode region prompt fe c)
    as [(text & w & _ & ->)|[(e & w & _ & _ & ->)|(e & sent & _ & ->)]].
  - split; [apply success_result_fields|apply success_result_lookup].
  - split; [apply failure_result_fields|apply failure_result_lookup].
  - split; [apply failure_result_fields|apply failure_result_lookup].
Qed.

(** C9: every result a comparison run stores carries the discriminator, the
model name and the timestamp, and with them the response text when the
discriminator is true and the error text when it is false. *)
Theorem results_carry_all_fields
    (utf8_decode : list Byte.byte -> exn + string)
    (region prompt : string) (cfgs : list config)
    (env : nat -> future_env) (p : page) (k : string) (d : pydict) :
  passes_validation prompt cfgs ->
  responses (handlers utf8_decode false true region prompt cfgs env p).2 !! k
  = Some d ->
  exists (ok : bool) (model timestamp text : string),
    d !! "success" = Some (VBool ok) /\
    d !! "model" = Some (VStr model) /\
    d !! "timestamp" = Some (VStr timestamp) /\
    d !! (if ok then "response" else "error") = Some (VStr text).
Proof.
  intros Hv Hd.
  refine (accepted_Forall utf8_decode (fun _ d => has_result_fields d)
            region prompt cfgs env p Hv _ k d Hd).
  intros fe c _. apply entry_fields.
Qed.

Lemma results_carry_all_fields_witness :
  exists (ok : bool) (model timestamp text : string),
    failure_result ("stopSequences not supported" +:+ stop_sequences_hint)
                   "B" "2024-05-01 10:00:01" !! "success" = Some (VBool ok) /\
    failure_result ("stopSequences not supported" +:+ stop_sequences_hint)
                   "B" "2024-05-01 10:00:01" !! "model" = Some (VStr model) /\
    failure_result ("stopSequences not supported" +:+ stop_sequences_hint)
                   "B" "2024-05-01 10:00:01" !! "timestamp"
    = Some (VStr timestamp) /\
    failure_result ("stopSequences not supported" +:+ stop_sequences_hint)
                   "B" "2024-05-01 10:00:01" !! (if ok then "response" else "error")
    = Some (VStr text).
Proof.
  apply (results_carry_all_fields Scenario.ascii_decode "us-west-2" "hello"
           Scenario.configs Scenario.env Scenario.empty_page "B").
  - split; [discriminate | repeat constructor; discriminate].
  - reflexivity.
Defined.

(** C10: every entry of the mapping a comparison run leaves has, as its
model name, the key it is stored under, whether it is a success, a failure
built by [invoke_agent], or a failure built by the collection loop. *)
Theorem model_field_is_key
    (utf8_decode : list Byte.byte -> exn + string)
    (region prompt : string) (cfgs : list config)
    (env : nat -> future_env) (p : page) (k : string) (d : pydict) :
  passes_validation prompt cfgs ->
  responses (handlers utf8_decode false true region prompt cfgs env p).2 !! k
  = Some d ->
  d !! "model" = Some (VStr k).
Proof.
  intros Hv Hd.
  refine (accepted_Forall utf8_decode
            (fun k d => d !! "model" = Some (VStr k))
            region prompt cfgs env p Hv _ k d Hd).
  intros fe c _. apply entry_fields.
Qed.

Lemma model_field_is_key_witness :
  failure_result "worker crashed" "B" "2024-05-01 10:00:01" !! "model"
  = Some (VStr "B").
Proof.
  apply (model_field_is_key Scenario.ascii_decode "us-west-2" "hello"
           Scenario.configs Scenario.env_escaping Scenario.empty_page "B").
  - split; [discriminate | repeat constructor; discriminate].
  - reflexivity.
Defined.

(** ** The join *)

(** The invariant of the runs of the pool. *)
Section PoolFacts.

Implicit Types (futures : list future) (p : page) (s : pool_state).

Lemma futures_at_snoc futures (indices : list nat) (i : nat) (f : future) :
  futures !! i = Some f ->
  futures_at futures (indices ++ [i]) = futures_at futures indices ++ [f].
Proof.
  intros Hi. unfold futures_at. rewrite omap_app. simpl. by rewrite Hi.
Qed.

Lemma pool_start_invariant futures p : pool_invariant futures p (pool_start p).
Proof.
  split; simpl; try done.
  - constructor.
  - intros i Hi. by apply elem_of_nil in Hi.
  - constructor.
  - by intros [|].
Qed.

Lemma pool_step_invariant futures p s s' :
  pool_invariant futures p s ->
  pool_step futures s s' ->
  pool_invariant futures p s'.
Proof.
  intros [Hdn Hdb Hyn Hyd Hpage Hex Hover] Hstep.
  assert (forall (l : list nat) (i : nat), NoDup l -> i ∉ l -> NoDup (l ++ [i]))
    as Hsnoc.
  { intros l i Hl Hi. apply NoDup_app. split; [done|].
    split; [|apply NoDup_singleton].
    by intros j Hj ->%list_elem_of_singleton. }
  destruct Hstep as [i s Hi Hfresh|i f s p' Hph Hd Hfresh Hf Hc
                    |i f s e p' Hph Hd Hfresh Hf Hc|s Hph Hall|s Hph Hall].
  - split; simpl; [by apply Hsnoc| |done| |done..].
    + intros j [Hj| ->%list_elem_of_singleton]%elem_of_app; auto.
    + intros j Hj. apply elem_of_app. auto.
  - rewrite collect_run in Hc. injection Hc as <-.
    split; simpl; [done|done|by apply Hsnoc| | |done|by intros [|]].
    + intros j [Hj| ->%list_elem_of_singleton]%elem_of_app; auto.
    + by rewrite (futures_at_snoc _ _ _ _ Hf), foldl_snoc, Hpage.
  - rewrite collect_run in Hc. discriminate.
  - split; simpl; [done..|].
    intros _. exact Hall.
  - split; simpl; [done..|].
    intros _. apply Hover. by left.
Qed.

Lemma pool_reachable_invariant futures p s :
  pool_reachable futures p s -> pool_invariant futures p s.
Proof.
  unfold pool_reachable. revert s. apply rtc_ind_r.
  - apply pool_start_invariant.
  - intros s s' _ Hstep IH. by eapply pool_step_invariant.
Qed.

End PoolFacts.

(** Runs that end with the handlers returned. *)
Section PoolRuns.

Implicit Types (futures : list future) (p : page) (s : pool_state).

Lemma workers_end_run futures s (l : list nat) :
  NoDup l ->
  (forall i, i ∈ l -> i < length futures /\ i ∉ done_futures s) ->
  rtc (pool_step futures) s
    {| done_futures := done_futures s ++ l; yielded := yielded s;
       live_page := live_page s; phase := phase s |}.
Proof.
  intros Hnd. revert s. induction Hnd as [|i l Hi Hnd IH]; intros s Hl.
  - rewrite app_nil_r. by destruct s.
  - eapply rtc_l.
    + apply (worker_ends futures i s); apply Hl; by left.
    + rewrite (cons_middle i (done_futures s) l), app_assoc.
      apply (IH {| done_futures := done_futures s ++ [i]; yielded := yielded s;
                   live_page := live_page s; phase := phase s |}).
      simpl. intros j Hj. destruct (Hl j) as [Hb Hf]; [by right|].
      split; [done|]. intros [?| ->%list_elem_of_singleton]%elem_of_app; done.
Qed.

Lemma loop_run futures s (l : list nat) (fs : list future) :
  phase s = Collecting ->
  NoDup l ->
  (forall i, i ∈ l -> i ∈ done_futures s /\ i ∉ yielded s) ->
  Forall2 (fun i f => futures !! i = Some f) l fs ->
  rtc (pool_step futures) s
    {| done_futures := done_futures s; yielded := yielded s ++ l;
       live_page :=
         set_responses (foldl record (responses (live_page s)) fs) (live_page s);
       phase := Collecting |}.
Proof.
  intros Hph Hnd Hl Hfs. revert s Hph Hnd Hl.
  induction Hfs as [|i f l fs Hf Hfs IH]; intros s Hph Hnd Hl.
  - rewrite app_nil_r. simpl. rewrite set_responses_same.
    destruct s; simpl in *; by subst.
  - apply NoDup_cons in Hnd as [Hi Hnd].
    eapply rtc_l.
    + apply (loop_body_returns futures i f s
               (set_responses (record (responses (live_page s)) f) (live_page s))
               Hph); [apply Hl; by left..|done|].
      apply collect_run.
    + rewrite (cons_middle i (yielded s) l), app_assoc.
      match goal with |- rtc _ ?s1 _ => specialize (IH s1 eq_refl Hnd) end.
      simpl in IH. destruct (live_page s) as [r er]; simpl in *. apply IH.
      intros j Hj. destruct (Hl j) as [Hd Hy]; [by right|].
      split; [done|]. intros [?| ->%list_elem_of_singleton]%elem_of_app; done.
Qed.

Lemma futures_at_Forall2 futures (l : list nat) :
  (forall i, i ∈ l -> i < length futures) ->
  Forall2 (fun i f => futures !! i = Some f) l (futures_at futures l).
Proof.
  induction l as [|i l IH]; intros Hl; [constructor|].
  destruct (lookup_lt_is_Some_2 futures i) as [f Hf]; [apply Hl; by left|].
  unfold futures_at. simpl. rewrite Hf. simpl.
  constructor; [done|]. apply IH. intros j Hj. apply Hl. by right.
Qed.

Lemma futures_at_seq (before futures : list future) :
  futures_at (before ++ futures) (seq (length before) (length futures)) = futures.
Proof.
  revert before. induction futures as [|f futures IH]; intros before; [done|].
  unfold futures_at in *. simpl. rewrite list_lookup_middle by done. simpl.
  f_equal. specialize (IH (before ++ [f])).
  rewrite length_app, Nat.add_comm, <- app_assoc in IH. exact IH.
Qed.

Lemma futures_at_all futures :
  futures_at futures (seq 0 (length futures)) = futures.
Proof. apply (futures_at_seq [] futures). Qed.

Lemma futures_at_Permutation futures (order : list nat) :
  order ≡ₚ seq 0 (length futures) -> futures_at futures order ≡ₚ futures.
Proof.
  intros Hp. rewrite <- (futures_at_all futures) at 2.
  unfold futures_at. by rewrite Hp.
Qed.

(** Any order of completion is the order of a run: the workers end in that
order, the loop goes through the futures in that order, and the handlers
return. *)
Lemma pool_run_in_order futures p (order : list nat) :
  order ≡ₚ seq 0 (length futures) ->
  pool_reachable futures p
    {| done_futures := order; yielded := order;
       live_page :=
         set_responses (foldl record ∅ (futures_at futures order)) p;
       phase := Returned |}.
Proof.
  intros Hp.
  assert (NoDup order) as Hnd by (rewrite Hp; apply NoDup_seq).
  assert (forall i, i ∈ order <-> i < length futures) as Hin.
  { intros i. rewrite Hp, elem_of_seq. lia. }
  unfold pool_reachable.
  pose proof (workers_end_run futures (pool_start p) order Hnd) as Hrun1.
  simpl in Hrun1. etrans; [apply Hrun1|]; clear Hrun1.
  { intros i Hi. split; [by apply Hin|apply not_elem_of_nil]. }
  pose proof (loop_run futures
                {| done_futures := order; yielded := [];
                   live_page := set_responses ∅ p; phase := Collecting |}
                order (futures_at futures order) eq_refl Hnd) as Hrun2.
  simpl in Hrun2. etrans; [apply Hrun2|]; clear Hrun2.
  { intros i Hi. split; [done|apply not_elem_of_nil]. }
  { apply futures_at_Forall2. intros i Hi. by apply Hin. }
  eapply rtc_l.
  { apply loop_ends; [done|]. simpl. intros i Hi. by apply Hin. }
  apply rtc_once. simpl.
  apply (with_block_exits futures
           {| done_futures := order; yielded := order;
              live_page :=
                set_responses (foldl record ∅ (futures_at futures order)) p;
              phase := Joining |}); [done|].
  simpl. intros i Hi. by apply Hin.
Qed.

(** A run never gets stuck short of returning: from every state of a run
the handlers can still return. *)
Lemma pool_can_return futures p s :
  pool_reachable futures p s ->
  exists s', rtc (pool_step futures) s s' /\ phase s' = Returned.
Proof.
  intros Hs. pose proof (pool_reachable_invariant futures p s Hs) as Hinv.
  destruct Hinv as [Hdn Hdb Hyn Hyd Hpage Hex Hover].
  set (n := length futures) in *.
  assert (forall s1, phase s1 = Joining ->
            (forall i, i < n -> i ∈ done_futures s1) ->
            exists s', rtc (pool_step futures) s1 s' /\ phase s' = Returned)
    as Hjoin.
  { intros s1 Hph Hall. eexists. split.
    - apply rtc_once. by apply with_block_exits.
    - done. }
  destruct (phase s) eqn:Hph.
  - set (l1 := filter (fun i => i ∉ done_futures s) (seq 0 n)).
    set (l2 := filter (fun i => i ∉ yielded s) (seq 0 n)).
    pose proof (workers_end_run futures s l1) as Hrun1.
    pose proof (loop_run futures
                  {| done_futures := done_futures s ++ l1; yielded := yielded s;
                     live_page := live_page s; phase := phase s |}
                  l2 (futures_at futures l2)) as Hrun2.
    simpl in Hrun2.
    assert (forall i, i < n -> i ∈ done_futures s ++ l1) as Hdone.
    { intros i Hi. apply elem_of_app.
      destruct (decide (i ∈ done_futures s)); [by left|right].
      apply list_elem_of_filter. split; [done|]. apply elem_of_seq. lia. }
    assert (forall i, i < n -> i ∈ yielded s ++ l2) as Hyield.
    { intros i Hi. apply elem_of_app.
      destruct (decide (i ∈ yielded s)); [by left|right].
      apply list_elem_of_filter. split; [done|]. apply elem_of_seq. lia. }
    destruct (Hjoin {| done_futures := done_futures s ++ l1;
                       yielded := yielded s ++ l2;
                       live_page :=
                         set_responses
                           (foldl record (responses (live_page s))
                                  (futures_at futures l2)) (live_page s);
                       phase := Joining |} eq_refl Hdone) as (s' & Hrun3 & Hret).
    exists s'. split; [|done].
    etrans; [apply Hrun1|].
    { apply NoDup_filter, NoDup_seq. }
    { intros i [Hi Hseq%elem_of_seq]%list_elem_of_filter. split; [lia|done]. }
    etrans; [apply Hrun2|].
    { done. }
    { apply NoDup_filter, NoDup_seq. }
    { intros i [Hi Hseq%elem_of_seq]%list_elem_of_filter.
      split; [apply Hdone; lia|done]. }
    { apply futures_at_Forall2.
      intros i [Hi Hseq%elem_of_seq]%list_elem_of_filter. lia. }
    eapply rtc_l; [|exact Hrun3].
    by apply (loop_ends futures
                {| done_futures := done_futures s ++ l1;
                   yielded := yielded s ++ l2;
                   live_page := _; phase := Collecting |}).
  - apply Hjoin; [done|]. intros i Hi. apply Hyd, Hover; auto.
  - by exists s.
  - by destruct (Hex e).
Qed.

Section Order.

Context {A B : Type} (g : A -> B) (key : B -> nat).

Lemma insert_by_fmap (x : A) (l : list A) :
  insert_by key (g x) (g <$> l) = g <$> insert_by (key ∘ g) x l.
Proof.
  induction l as [|y l IH]; simpl; [done|].
  destruct (key (g x) <=? key (g y)); [done|]. simpl. f_equal. apply IH.
Qed.

Lemma sort_by_fmap (l : list A) :
  sort_by key (g <$> l) = g <$> sort_by (key ∘ g) l.
Proof.
  induction l as [|x l IH]; [done|].
  change (insert_by key (g x) (sort_by key (g <$> l))
          = g <$> insert_by (key ∘ g) x (sort_by (key ∘ g) l)).
  by rewrite IH, insert_by_fmap.
Qed.

End Order.

Lemma completion_order_Permutation futures :
  completion_order futures ≡ₚ seq 0 (length futures).
Proof.
  unfold completion_order. rewrite sort_by_Permutation.
  unfold indexed. by rewrite fst_zip by (rewrite length_seq; lia).
Qed.

Lemma futures_at_completion_order futures :
  futures_at futures (completion_order futures) = as_completed futures.
Proof.
  unfold completion_order, as_completed.
  rewrite <- (snd_zip (seq 0 (length futures)) futures) at 3
    by (rewrite length_seq; lia).
  rewrite sort_by_fmap. fold (indexed futures).
  assert (Forall (fun x => futures !! x.1 = Some x.2)
                 (sort_by (fut_finished_at ∘ snd) (indexed futures))) as Hall.
  { rewrite sort_by_Permutation. apply Forall_forall.
    intros [i f] Hif. simpl. unfold indexed in Hif.
    apply list_elem_of_lookup in Hif as [k Hk].
    apply lookup_zip_with_Some in Hk as (i' & f' & [= <- <-] & Hi & Hf).
    apply lookup_seq in Hi as [-> _]. done. }
  induction Hall as [|[i f] l Hif _ IH]; [done|].
  unfold futures_at in *. simpl in *. rewrite Hif. simpl. f_equal. apply IH.
Qed.

End PoolRuns.

(** The page the handlers leave after an accepted batch is that of a run of
the pool in which the futures complete, and are collected, in the order of
their finishing instants. *)
Lemma handlers_pool_run (utf8_decode : list Byte.byte -> exn + string)
    (region prompt : string) (cfgs : list config)
    (env : nat -> future_env) (p : page) :
  passes_validation prompt cfgs ->
  let futures := submit_all utf8_decode region prompt env cfgs in
  pool_reachable futures p
    {| done_futures := completion_order futures;
       yielded := completion_order futures;
       live_page :=
         (handlers utf8_decode false true region prompt cfgs env p).2;
       phase := Returned |}.
Proof.
  intros Hv futures. rewrite handlers_accepted by done. simpl. fold futures.
  rewrite <- futures_at_completion_order.
  apply (pool_run_in_order futures p (completion_order futures)).
  apply completion_order_Permutation.
Qed.

(** C7: [compare], on a batch it accepts, returns with every future it
submitted, one per config, and returns from the loop of line 139, which went
through every one of them: [as_completed] hands out each future once, and
[for_future] on them ends normally on the page [compare] leaves. The loop is
not left early: whichever future comes first, and whether or not its call
failed, the futures after it are collected too. In the interleaved semantics
that page is the page of a run that has returned with every worker done; no
run lets an exception out of the loop, and a run has returned only if every
future has completed and has been collected, its page being the one
[for_future] leaves on the futures in the order in which they were
collected. *)
Theorem compare_joins_every_invocation
    (utf8_decode : list Byte.byte -> exn + string)
    (region prompt : string) (cfgs : list config)
    (env : nat -> future_env) (p : page) :
  agent_ids_configured cfgs ->
  cfgs <> [] ->
  let futures := submit_all utf8_decode region prompt env cfgs in
  let out := compare utf8_decode region prompt cfgs env p in
  out.1 = inr (Compared futures)
  /\ length futures = length cfgs
  /\ as_completed futures ≡ₚ futures
  /\ for_future (as_completed futures) (set_responses ∅ p) = (inr tt, out.2)
  /\ (forall pre f post,
        as_completed futures = pre ++ f :: post ->
        responses out.2 = foldl record (record (foldl record ∅ pre) f) post)
  /\ pool_reachable futures p
       {| done_futures := completion_order futures;
          yielded := completion_order futures;
          live_page := out.2;
          phase := Returned |}
  /\ (forall s,
        pool_reachable futures p s ->
        (forall e, phase s <> Propagated e) /\
        (phase s = Returned ->
         (forall i, i < length cfgs -> i ∈ done_futures s /\ i ∈ yielded s) /\
         futures_at futures (yielded s) ≡ₚ futures /\
         for_future (futures_at futures (yielded s)) (set_responses ∅ p)
         = (inr tt, live_page s))).
Proof.
  intros Hok Hne futures out.
  assert (length futures = length cfgs) as Hlen by apply submit_all_length.
  assert (out.2 = set_responses (foldl record ∅ (as_completed futures)) p)
    as Hpage by (subst out; by rewrite compare_accepted).
  repeat apply conj.
  - subst out. by rewrite compare_accepted_end.
  - done.
  - apply sort_by_Permutation.
  - by rewrite for_future_run, Hpage.
  - intros pre f post Hsplit.
    by rewrite Hpage, Hsplit, foldl_app.
  - rewrite Hpage, <- futures_at_completion_order.
    apply (pool_run_in_order futures p (completion_order futures)).
    apply completion_order_Permutation.
  - intros s Hs.
    destruct (pool_reachable_invariant futures p s Hs)
      as [Hdn Hdb Hyn Hyd Hinv Hex Hover].
    split; [done|]. intros Hret.
    assert (forall i, i < length cfgs -> i ∈ yielded s) as Hall
      by (intros i Hi; apply Hover; [by right|lia]).
    split; [by auto|]. split.
    + apply futures_at_Permutation.
      apply NoDup_Permutation; [done|apply NoDup_seq|].
      intros i. rewrite elem_of_seq. split.
      * intros Hi%Hyd%Hdb. lia.
      * intros [_ Hi]. apply Hall. lia.
    + by rewrite for_future_run, Hinv.
Qed.

Lemma compare_joins_every_invocation_witness :
  let futures := submit_all Scenario.ascii_decode "us-west-2" "hello"
                   Scenario.env Scenario.configs in
  let out := compare Scenario.ascii_decode "us-west-2" "hello"
               Scenario.configs Scenario.env Scenario.empty_page in
  out.1 = inr (Compared futures)
  /\ length futures = 2
  /\ as_completed futures ≡ₚ futures
  /\ for_future (as_completed futures) (set_responses ∅ Scenario.empty_page)
     = (inr tt, out.2)
  /\ (forall pre f post,
        as_completed futures = pre ++ f :: post ->
        responses out.2 = foldl record (record (foldl record ∅ pre) f) post)
  /\ pool_reachable futures Scenario.empty_page
       {| done_futures := completion_order futures;
          yielded := completion_order futures;
          live_page := out.2;
          phase := Returned |}
  /\ (forall s,
        pool_reachable futures Scenario.empty_page s ->
        (forall e, phase s <> Propagated e) /\
        (phase s = Returned ->
         (forall i, i < 2 -> i ∈ done_futures s /\ i ∈ yielded s) /\
         futures_at futures (yielded s) ≡ₚ futures /\
         for_future (futures_at futures (yielded s))
                    (set_responses ∅ Scenario.empty_page)
         = (inr tt, live_page s))).
Proof.
  apply (compare_joins_every_invocation Scenario.ascii_decode "us-west-2"
           "hello" Scenario.configs Scenario.env Scenario.empty_page).
  - repeat constructor; discriminate.
  - discriminate.
Defined.

(** * Further properties *)

(** ** Substrings *)

Lemma prefix_spec (needle hay : string) :
  String.prefix needle hay = true <-> exists post, hay = needle +:+ post.
Proof.
  revert hay. induction needle as [|a needle IH]; intros hay.
  - split; [|by destruct hay]. intros _. by exists hay.
  - destruct hay as [|b hay]; simpl.
    + split; [done|]. by intros [post [=]].
    + destruct (ascii_dec a b) as [->|Hne].
      * rewrite IH. split.
        -- intros [post ->]. by exists post.
        -- intros [post [= ->]]. by exists post.
      * split; [done|]. intros [post [= ? _]]. done.
Qed.

(** [needle in hay] holds exactly when [hay] is some text, then [needle],
    then some text. *)
Lemma contains_spec (needle hay : string) :
  PyStr.contains needle hay = true <->
  exists pre post, hay = pre +:+ needle +:+ post.
Proof.
  induction hay as [|b hay IH]; cbn [PyStr.contains].
  - rewrite orb_false_r, prefix_spec. split.
    + intros [post ->]. by exists "", post.
    + intros ([|a pre] & post & Heq); [by exists post|]. discriminate.
  - rewrite orb_true_iff, prefix_spec, IH. split.
    + intros [[post ->]|(pre & post & ->)].
      * by exists "", post.
      * by exists (String b pre), post.
    + intros ([|a pre] & post & Heq).
      * left. by exists post.
      * right. injection Heq as -> ->. by exists pre, post.
Qed.

(** X1: the remediation hint is appended to an error message exactly when
    the message is some text, then [stopSequences], then some text; any other
    message is left as it is. *)
Theorem annotate_substring (msg : string) :
  (annotate msg = msg +:+ stop_sequences_hint <->
   exists pre post, msg = pre +:+ "stopSequences" +:+ post)
  /\ (annotate msg = msg <->
      ~ exists pre post, msg = pre +:+ "stopSequences" +:+ post).
Proof.
  rewrite <- contains_spec. split; [apply annotate_iff|].
  unfold annotate. destruct (PyStr.contains _ msg) eqn:Hc.
  - split; [|done]. intros Heq.
    by apply PyStrFacts.app_ne_self in Heq;
      [|apply stop_sequences_hint_nonempty].
  - split; [by intros _ ?|done].
Qed.

(** ** Streams that fail part-way *)

Section StreamFacts.

Variable utf8_decode : list Byte.byte -> exn + string.

Implicit Types (items : list stream_item) (log : list request).

(** A stream that is delivered to its end is consumed as its payloads are
    decoded. *)
Lemma for_event_payloads items (acc : string) log :
  faultless items ->
  for_event utf8_decode items acc log =
  (decode_onto utf8_decode acc (payloads items), log).
Proof.
  intros Hf. revert acc. induction Hf as [|it rest [ev ->] _ IH]; intros acc.
  - done.
  - simpl. unfold on_event, Exc.bind.
    destruct (ev_chunk ev) as [[[b|]]|]; simpl; [|by apply IH..].
    unfold Exc.lift, Exc.ret. destruct (utf8_decode b) as [e|t]; simpl.
    + done.
    + apply IH.
Qed.

(** Going through the part of a stream that is delivered and decodes. *)
Lemma for_event_app (pre rest : list stream_item) (texts : list string)
    (acc : string) log :
  faultless pre ->
  Forall2 (fun b t => utf8_decode b = inr t) (payloads pre) texts ->
  for_event utf8_decode (pre ++ rest) acc log =
  for_event utf8_decode rest (acc +:+ join texts) log.
Proof.
  intros Hf. revert texts acc.
  induction Hf as [|it pre [ev ->] _ IH]; intros texts acc Hd.
  - apply Forall2_nil_inv_l in Hd as ->. simpl.
    by rewrite PyStrFacts.app_empty_r.
  - simpl in *. unfold on_event, Exc.bind.
    destruct (ev_chunk ev) as [[[b|]]|]; simpl in *; [|by apply IH..].
    apply Forall2_cons_inv_l in Hd as (t & texts' & Ht & Hd & ->).
    unfold Exc.lift, Exc.ret. rewrite Ht.
    rewrite (IH _ _ Hd). simpl. by rewrite PyStrFacts.app_assoc.
Qed.

Lemma for_event_item_raises (it : stream_item) (e : exn)
    (rest : list stream_item) (acc : string) log :
  item_raises utf8_decode it e ->
  for_event utf8_decode (it :: rest) acc log = (inl e, log).
Proof.
  intros [->|(b & -> & Hb)]; [done|].
  simpl. unfold on_event, Exc.bind, Exc.lift. simpl. by rewrite Hb.
Qed.

(** The result of an invocation whose remote call answered, by what going
    through the stream gives. *)
Lemma invoke_agent_answered (w : task_world) (a al s p m r : string) log
    (c : client) (resp : response) :
  boto3_client w "bedrock-agent-runtime" r = inr c ->
  c (request_of a al s p) = inr resp ->
  invoke_agent utf8_decode w a al s p m r log =
  (inr match (for_event utf8_decode (stream_of resp) ""
                        (log ++ [request_of a al s p])).1 with
       | inl e => failure_result (annotate (exn_str e)) m (now w)
       | inr text => success_result (response_or_placeholder text) m (now w)
       end,
   log ++ [request_of a al s p]).
Proof.
  intros Hc Hresp. rewrite invoke_agent_unfold.
  unfold invoke_agent_try, get_bedrock_client, client_invoke_agent.
  exc_unfold. rewrite Hc. fold (request_of a al s p). rewrite Hresp.
  unfold stream_of. destruct (completion resp) as [items|]; simpl; [|done].
  pose proof (for_event_state utf8_decode items ""
                (log ++ [request_of a al s p])) as Hs.
  destruct (for_event utf8_decode items "" _) as [[e|t] log'];
    simpl in *; by subst.
Qed.

End StreamFacts.

(** X2: when the stream of an answered call fails part-way (iterating it
    raises, or a chunk does not decode), the invocation is a failure that
    carries the message of that exception, and nothing of the text received
    before it: the result has no response at all. The request was sent
    once. *)
Theorem partial_stream_is_discarded
    (utf8_decode : list Byte.byte -> exn + string)
    (w : task_world) (a al s p m r : string) (log : list request)
    (c : client) (resp : response)
    (pre rest : list stream_item) (it : stream_item) (e : exn)
    (texts : list string) :
  boto3_client w "bedrock-agent-runtime" r = inr c ->
  c (request_of a al s p) = inr resp ->
  completion resp = Some (pre ++ it :: rest) ->
  faultless pre ->
  Forall2 (fun b t => utf8_decode b = inr t) (payloads pre) texts ->
  item_raises utf8_decode it e ->
  let result := failure_result (annotate (exn_str e)) m (now w) in
  invoke_agent utf8_decode w a al s p m r log
  = (inr result, log ++ [request_of a al s p])
  /\ result !! "response" = None
  /\ result !! "success" = Some (VBool false).
Proof.
  intros Hc Hresp Hitems Hf Hd Hit result.
  split; [|split; apply failure_result_lookup].
  rewrite (invoke_agent_answered utf8_decode w a al s p m r log c resp Hc Hresp).
  unfold stream_of. rewrite Hitems. simpl.
  rewrite (for_event_app utf8_decode pre (it :: rest) texts "" _ Hf Hd).
  by rewrite (for_event_item_raises utf8_decode it e rest _ _ Hit).
Qed.

Lemma partial_stream_is_discarded_witness :
  let w := Scenario.streaming
             [Scenario.chunk "Hel"; Fault (Exn "connection reset");
              Scenario.chunk "lo!"] "2024-05-01 10:00:02" in
  let result := failure_result "connection reset" "A" "2024-05-01 10:00:02" in
  invoke_agent Scenario.ascii_decode w "AGENT0001" "TSTALIASID" "session-0"
               "hello" "A" "us-west-2" []
  = (inr result,
     [] ++ [request_of "AGENT0001" "TSTALIASID" "session-0" "hello"])
  /\ result !! "response" = None
  /\ result !! "success" = Some (VBool false).
Proof.
  intros w result.
  refine (partial_stream_is_discarded Scenario.ascii_decode w
            "AGENT0001" "TSTALIASID" "session-0" "hello" "A" "us-west-2" []
            (fun _ => inr (Response (Some
               [Scenario.chunk "Hel"; Fault (Exn "connection reset");
                Scenario.chunk "lo!"])))
            (Response (Some
               [Scenario.chunk "Hel"; Fault (Exn "connection reset");
                Scenario.chunk "lo!"]))
            [Scenario.chunk "Hel"] [Scenario.chunk "lo!"]
            (Fault (Exn "connection reset")) (Exn "connection reset")
            ["Hel"] eq_refl eq_refl eq_refl _ _ _).
  - repeat constructor. by eexists.
  - repeat constructor.
  - by left.
Defined.

(** X3: the result of an answered call depends on the stream only through
    the sequence of its chunk payloads. Two streams delivered to their ends
    with the same payloads give the same result: events with no chunk, chunks
    with no bytes and a response with no stream at all change nothing. *)
Theorem result_depends_on_payloads
    (utf8_decode : list Byte.byte -> exn + string)
    (w1 w2 : task_world) (a al s p m r : string) (log : list request)
    (c1 c2 : client) (resp1 resp2 : response) :
  boto3_client w1 "bedrock-agent-runtime" r = inr c1 ->
  boto3_client w2 "bedrock-agent-runtime" r = inr c2 ->
  c1 (request_of a al s p) = inr resp1 ->
  c2 (request_of a al s p) = inr resp2 ->
  now w1 = now w2 ->
  faultless (stream_of resp1) ->
  faultless (stream_of resp2) ->
  payloads (stream_of resp1) = payloads (stream_of resp2) ->
  invoke_agent utf8_decode w1 a al s p m r log
  = invoke_agent utf8_decode w2 a al s p m r log.
Proof.
  intros Hc1 Hc2 Hr1 Hr2 Hnow Hf1 Hf2 Hp.
  rewrite (invoke_agent_answered utf8_decode w1 a al s p m r log c1 resp1)
    by done.
  rewrite (invoke_agent_answered utf8_decode w2 a al s p m r log c2 resp2)
    by done.
  rewrite !for_event_payloads by done. by rewrite Hp, Hnow.
Qed.

Lemma result_depends_on_payloads_witness :
  let noisy := [Scenario.chunk "Hel"; Yield (Event None);
                Yield (Event (Some (ChunkData None))); Scenario.chunk "lo!"] in
  invoke_agent Scenario.ascii_decode
    (Scenario.streaming noisy "2024-05-01 10:00:02")
    "AGENT0001" "TSTALIASID" "session-0" "hello" "A" "us-west-2" []
  = invoke_agent Scenario.ascii_decode Scenario.world_A
      "AGENT0001" "TSTALIASID" "session-0" "hello" "A" "us-west-2" [].
Proof.
  intros noisy.
  refine (result_depends_on_payloads Scenario.ascii_decode
            (Scenario.streaming noisy "2024-05-01 10:00:02") Scenario.world_A
            "AGENT0001" "TSTALIASID" "session-0" "hello" "A" "us-west-2" []
            (fun _ => inr (Response (Some noisy)))
            (fun _ => inr (Response (Some [Scenario.chunk "Hel";
                                           Scenario.chunk "lo!"])))
            (Response (Some noisy))
            (Response (Some [Scenario.chunk "Hel"; Scenario.chunk "lo!"]))
            eq_refl eq_refl eq_refl eq_refl eq_refl _ _ eq_refl).
  - repeat constructor; by eexists.
  - repeat constructor; by eexists.
Defined.

(** X4: when no client can be made (the factory raises), no request is sent
    and the invocation is a failure that carries the message of that
    exception. *)
Theorem client_failure_sends_nothing
    (utf8_decode : list Byte.byte -> exn + string)
    (w : task_world) (a al s p m r : string) (log : list request) (e : exn) :
  boto3_client w "bedrock-agent-runtime" r = inl e ->
  invoke_agent utf8_decode w a al s p m r log
  = (inr (failure_result (annotate (exn_str e)) m (now w)), log).
Proof.
  intros Hc. rewrite invoke_agent_unfold.
  unfold invoke_agent_try, get_bedrock_client. exc_unfold. by rewrite Hc.
Qed.

Lemma client_failure_sends_nothing_witness :
  invoke_agent Scenario.ascii_decode
    {| boto3_client := fun _ _ => inl (Exn "Unable to locate credentials");
       now := "2024-05-01 10:00:00" |}
    "AGENT0001" "TSTALIASID" "session-0" "hello" "A" "us-west-2" []
  = (inr (failure_result (annotate "Unable to locate credentials") "A"
                         "2024-05-01 10:00:00"), []).
Proof.
  exact (client_failure_sends_nothing Scenario.ascii_decode
           {| boto3_client := fun _ _ => inl (Exn "Unable to locate credentials");
              now := "2024-05-01 10:00:00" |}
           "AGENT0001" "TSTALIASID" "session-0" "hello" "A" "us-west-2" []
           (Exn "Unable to locate credentials") eq_refl).
Defined.

(** ** The requests of a run *)

Section RequestFacts.

Variable utf8_decode : list Byte.byte -> exn + string.

Implicit Types (cfgs : list config) (env : nat -> future_env) (p : page).

(** What the future of a config whose worker runs [invoke_agent] sent. *)
Lemma submit_sent (region prompt : string) (fe : future_env) (c : config)
    (w : task_world) :
  fate fe = Returns w ->
  fut_sent (submit utf8_decode region prompt fe c) =
  match boto3_client w "bedrock-agent-runtime" region with
  | inl _ => []
  | inr _ => [config_request prompt c]
  end.
Proof.
  intros Hw. unfold submit. rewrite Hw. simpl.
  rewrite invoke_agent_log.
  by destruct (boto3_client w _ region).
Qed.

Lemma handlers_submitted (region prompt : string) cfgs env p :
  passes_validation prompt cfgs ->
  cfgs <> [] ->
  submitted (handlers utf8_decode false true region prompt cfgs env p).1
  = submit_all utf8_decode region prompt env cfgs.
Proof.
  intros [Hp Hok] Hne.
  by rewrite handlers_compare, compare_accepted_end.
Qed.

End RequestFacts.

(** X5: in a comparison run, the worker of a config that runs [invoke_agent]
    sends one request to the remote service when its client can be made, and
    none when it cannot: never two. The request carries that config's agent
    id, alias id and session id, and the prompt as entered. *)
Theorem one_request_per_worker
    (utf8_decode : list Byte.byte -> exn + string)
    (region prompt : string) (cfgs : list config)
    (env : nat -> future_env) (p : page)
    (i : nat) (c : config) (w : task_world) :
  passes_validation prompt cfgs ->
  cfgs !! i = Some c ->
  fate (env i) = Returns w ->
  exists f,
    submitted (handlers utf8_decode false true region prompt cfgs env p).1
      !! i = Some f /\
    fut_config f = c /\
    fut_sent f =
      match boto3_client w "bedrock-agent-runtime" region with
      | inl _ => []
      | inr _ => [config_request prompt c]
      end /\
    length (fut_sent f) <= 1.
Proof.
  intros Hv Hi Hw.
  assert (cfgs <> []) as Hne by (intros ->; done).
  rewrite handlers_submitted by done.
  exists (submit utf8_decode region prompt (env i) c).
  split; [|split; [done|]].
  - unfold submit_all. by rewrite list_lookup_imap, Hi.
  - rewrite (submit_sent utf8_decode region prompt (env i) c w Hw).
    split; [done|]. destruct (boto3_client w _ region); simpl; lia.
Qed.

Lemma one_request_per_worker_witness :
  exists f,
    submitted (handlers Scenario.ascii_decode false true "us-west-2" "hello"
                 Scenario.configs Scenario.env Scenario.empty_page).1
      !! 1 = Some f /\
    fut_config f = Scenario.config_B /\
    fut_sent f =
      match boto3_client Scenario.world_B "bedrock-agent-runtime" "us-west-2"
      with
      | inl _ => []
      | inr _ => [config_request "hello" Scenario.config_B]
      end /\
    length (fut_sent f) <= 1.
Proof.
  apply (one_request_per_worker Scenario.ascii_decode "us-west-2" "hello"
           Scenario.configs Scenario.env Scenario.empty_page
           1 Scenario.config_B Scenario.world_B).
  - split; [discriminate | repeat constructor; discriminate].
  - reflexivity.
  - reflexivity.
Defined.

(** ** Which result a name keeps *)

Section KeptResult.

Variable utf8_decode : list Byte.byte -> exn + string.

Implicit Types (cfgs : list config) (env : nat -> future_env) (p : page).

(** With pairwise distinct names, a config is the only one of its name. *)
Lemma NoDup_names_unique cfgs (i : nat) (c : config) :
  NoDup (name <$> cfgs) ->
  cfgs !! i = Some c ->
  forall j c', cfgs !! j = Some c' -> name c' = name c -> j = i.
Proof.
  intros Hnd Hi j c' Hj Hn.
  apply (NoDup_lookup (name <$> cfgs) j i (name c) Hnd).
  - rewrite list_lookup_fmap, Hj. simpl. by rewrite Hn.
  - by rewrite list_lookup_fmap, Hi.
Qed.

Lemma entry_submit_ext (region prompt : string) (fe1 fe2 : future_env)
    (c : config) :
  fate fe1 = fate fe2 ->
  main_now fe1 = main_now fe2 ->
  entry (submit utf8_decode region prompt fe1 c)
  = entry (submit utf8_decode region prompt fe2 c).
Proof.
  intros Hf Hm. unfold entry, submit, fut_name. simpl. by rewrite Hf, Hm.
Qed.

(** Futures of pairwise distinct names: at most one under each name. *)
Lemma filter_name_NoDup (k : string) (l : list future) :
  NoDup (fut_name <$> l) ->
  filter (fun f => fut_name f = k) l = [] \/
  exists f, filter (fun f => fut_name f = k) l = [f].
Proof.
  induction l as [|f l IH]; [by left|].
  rewrite fmap_cons, NoDup_cons. intros [Hf Hnd].
  rewrite filter_cons. destruct (decide (fut_name f = k)) as [<-|Hne].
  - right. exists f. f_equal.
    destruct (IH Hnd) as [Hnil|[g Hg]]; [done|].
    exfalso. apply Hf.
    assert (g ∈ filter (fun f0 => fut_name f0 = fut_name f) l) as Hin
      by (rewrite Hg; by left).
    apply list_elem_of_filter in Hin as [<- Hin].
    by apply list_elem_of_fmap_2.
  - by apply IH.
Qed.

(** With pairwise distinct names the mapping the loop builds does not depend
    on the order in which it goes through the futures. *)
Lemma foldl_record_Permutation (m : gmap string pydict) (l l' : list future) :
  NoDup (fut_name <$> l) ->
  l ≡ₚ l' ->
  foldl record m l = foldl record m l'.
Proof.
  intros Hnd Hp. apply map_eq. intros k. rewrite !lookup_foldl_record.
  assert (filter (fun f => fut_name f = k) l'
          = filter (fun f => fut_name f = k) l) as ->; [|done].
  assert (filter (fun f => fut_name f = k) l'
          ≡ₚ filter (fun f => fut_name f = k) l) as Hpf by by rewrite Hp.
  destruct (filter_name_NoDup k l Hnd) as [Hnil|[f Hf]].
  - rewrite Hnil in *. by apply Permutation_nil_r.
  - rewrite Hf in *. by apply Permutation_singleton_r.
Qed.

End KeptResult.


(** X7: when the names of the configs are pairwise distinct, the mapping an
    accepted run leaves does not depend on the instants at which the futures
    complete: two runs whose workers meet the same fates leave the same
    mapping, whichever agent answers first. *)
Theorem completion_order_is_irrelevant
    (utf8_decode : list Byte.byte -> exn + string)
    (region prompt : string) (cfgs : list config)
    (env1 env2 : nat -> future_env) (p : page) :
  passes_validation prompt cfgs ->
  NoDup (name <$> cfgs) ->
  (forall i, fate (env1 i) = fate (env2 i) /\
             main_now (env1 i) = main_now (env2 i)) ->
  responses (handlers utf8_decode false true region prompt cfgs env1 p).2
  = responses (handlers utf8_decode false true region prompt cfgs env2 p).2.
Proof.
  intros Hv Hnd Henv. apply map_eq. intros k.
  destruct (decide (k ∈ name <$> cfgs)) as [Hk|Hk].
  - apply list_elem_of_fmap in Hk as (c & -> & Hc).
    apply list_elem_of_lookup in Hc as [i Hi].
    pose proof (NoDup_names_unique cfgs i c Hnd Hi) as Hu.
    rewrite !(accepted_lookup_unique utf8_decode region prompt cfgs _ p i c)
      by done.
    f_equal. apply entry_submit_ext; apply Henv.
  - transitivity (@None pydict); [|symmetry]; apply eq_None_not_Some;
      by rewrite accepted_keys.
Qed.

Lemma completion_order_is_irrelevant_witness :
  let swapped (i : nat) : future_env :=
    {| fate := fate (Scenario.env i); finished_at := 5 - finished_at (Scenario.env i);
       main_now := main_now (Scenario.env i) |} in
  responses (handlers Scenario.ascii_decode false true "us-west-2" "hello"
               Scenario.configs Scenario.env Scenario.empty_page).2
  = responses (handlers Scenario.ascii_decode false true "us-west-2" "hello"
                 Scenario.configs swapped Scenario.empty_page).2.
Proof.
  intros swapped.
  apply (completion_order_is_irrelevant Scenario.ascii_decode "us-west-2"
           "hello" Scenario.configs Scenario.env swapped Scenario.empty_page).
  - split; [discriminate | repeat constructor; discriminate].
  - repeat constructor; [by intros [=]%list_elem_of_singleton|
                         by intros ?%elem_of_nil].
  - done.
Defined.

(** X8: when the names of the configs are pairwise distinct, every
    interleaving of the workers and the collection loop ends with the same
    page: whatever the order in which the futures complete and are handed to
    the loop, once the handlers have returned the page is the one the
    handlers leave when the futures are collected by finishing instant. *)
Theorem every_schedule_same_page
    (utf8_decode : list Byte.byte -> exn + string)
    (region prompt : string) (cfgs : list config)
    (env : nat -> future_env) (p : page) (s : pool_state) :
  passes_validation prompt cfgs ->
  NoDup (name <$> cfgs) ->
  pool_reachable (submit_all utf8_decode region prompt env cfgs) p s ->
  phase s = Returned ->
  live_page s = (handlers utf8_decode false true region prompt cfgs env p).2.
Proof.
  intros Hv Hnd Hs Hret.
  set (futures := submit_all utf8_decode region prompt env cfgs) in *.
  destruct (pool_reachable_invariant futures p s Hs)
    as [Hdn Hdb Hyn Hyd Hpage Hex Hover].
  assert (yielded s ≡ₚ seq 0 (length futures)) as Hperm.
  { apply NoDup_Permutation; [done|apply NoDup_seq|].
    intros i. rewrite elem_of_seq. split.
    - intros Hi%Hyd%Hdb. lia.
    - intros [_ Hi]. apply Hover; auto. }
  rewrite handlers_accepted by done. fold futures. rewrite Hpage.
  unfold set_responses. f_equal.
  apply foldl_record_Permutation.
  - rewrite (futures_at_Permutation futures (yielded s) Hperm).
    unfold futures. by rewrite submit_all_names.
  - rewrite (futures_at_Permutation futures (yielded s) Hperm).
    unfold as_completed. by rewrite sort_by_Permutation.
Qed.

Lemma every_schedule_same_page_witness :
  let futures := submit_all Scenario.ascii_decode "us-west-2" "hello"
                   Scenario.env Scenario.configs in
  set_responses (foldl record ∅ (futures_at futures [0; 1])) Scenario.empty_page
  = (handlers Scenario.ascii_decode false true "us-west-2" "hello"
       Scenario.configs Scenario.env Scenario.empty_page).2.
Proof.
  intros futures.
  apply (every_schedule_same_page Scenario.ascii_decode "us-west-2" "hello"
           Scenario.configs Scenario.env Scenario.empty_page
           {| done_futures := [0; 1]; yielded := [0; 1];
              live_page :=
                set_responses (foldl record ∅ (futures_at futures [0; 1]))
                              Scenario.empty_page;
              phase := Returned |}).
  - split; [discriminate | repeat constructor; discriminate].
  - repeat constructor; [by intros [=]%list_elem_of_singleton|
                         by intros ?%elem_of_nil].
  - by apply (pool_run_in_order futures Scenario.empty_page [0; 1]).
  - reflexivity.
Defined.

(** ** The configuration widgets *)

Section WidgetFacts.

Implicit Types (typed : string -> option string).

Lemma models_config_lookup (num_models : nat) typed (i : nat) (c : config) :
  models_config num_models typed !! i = Some c <->
  i < num_models /\ c = config_of_widgets typed i.
Proof.
  unfold models_config. rewrite list_lookup_fmap.
  destruct (decide (i < num_models)) as [Hi|Hi].
  - rewrite lookup_seq_lt by done. simpl. split.
    + by intros [= <-].
    + by intros [_ ->].
  - rewrite lookup_seq_ge by lia. simpl. split; [done|]. by intros [? _].
Qed.

(** The names of a page on which no name was typed. *)
Lemma default_names (num_models : nat) typed :
  (forall i, i < num_models -> typed ("name_" +:+ decimal i) = None) ->
  name <$> models_config num_models typed
  = (fun i => "Model " +:+ decimal (i + 1)) <$> seq 0 num_models.
Proof.
  intros Hnone. unfold models_config. rewrite <- list_fmap_compose.
  apply list_fmap_ext. intros k i Hk.
  apply lookup_seq in Hk as [-> Hk]. simpl.
  unfold text_input. by rewrite Hnone.
Qed.

Lemma default_names_NoDup (num_models : nat) :
  2 <= num_models <= 4 ->
  NoDup ((fun i => "Model " +:+ decimal (i + 1)) <$> seq 0 num_models).
Proof.
  intros Hn.
  assert (num_models = 2 \/ num_models = 3 \/ num_models = 4)
    as [->|[->| ->]] by lia;
    by refine (bool_decide_unpack _ _); vm_compute.
Qed.

End WidgetFacts.

(** X9: on a page where the model names are left at their initial values
    ([Model 1], [Model 2], ...) and every Agent ID is filled in, a comparison
    leaves exactly one result per configured model: [num_models] results, one
    under each initial name. *)
Theorem default_names_one_result_each
    (utf8_decode : list Byte.byte -> exn + string)
    (num_models : nat) (typed : string -> option string)
    (region prompt : string) (env : nat -> future_env) (p : page) :
  2 <= num_models <= 4 ->
  prompt <> "" ->
  (forall i, i < num_models -> typed ("name_" +:+ decimal i) = None) ->
  (forall i, i < num_models ->
     exists a, typed ("agent_" +:+ decimal i) = Some a /\ a <> "") ->
  let m := responses
             (handlers utf8_decode false true region prompt
                       (models_config num_models typed) env p).2 in
  size m = num_models /\
  forall i, i < num_models -> is_Some (m !! ("Model " +:+ decimal (i + 1))).
Proof.
  intros Hn Hp Hnames Hagents m.
  set (cfgs := models_config num_models typed) in *.
  assert (passes_validation prompt cfgs) as Hv.
  { split; [done|]. apply Forall_forall. intros c Hc.
    apply list_elem_of_lookup in Hc as [i Hi].
    apply models_config_lookup in Hi as [Hi ->].
    destruct (Hagents i Hi) as (a & Ha & Hne).
    simpl. unfold text_input. by rewrite Ha. }
  pose proof (default_names num_models typed Hnames) as Hdef.
  fold cfgs in Hdef.
  split.
  - subst m. rewrite <- size_dom, accepted_dom by done.
    rewrite size_list_to_set.
    + rewrite length_fmap. unfold cfgs, models_config.
      by rewrite length_fmap, length_seq.
    + rewrite Hdef. by apply default_names_NoDup.
  - intros i Hi. subst m. apply accepted_keys; [done|].
    rewrite Hdef. apply list_elem_of_fmap. exists i. split; [done|].
    apply elem_of_seq. lia.
Qed.

Lemma default_names_one_result_each_witness :
  let typed (key : string) : option string :=
    if decide (key = "agent_0") then Some "AGENT0001"
    else if decide (key = "agent_1") then Some "AGENT0002"
    else None in
  let m := responses
             (handlers Scenario.ascii_decode false true "us-west-2" "hello"
                       (models_config 2 typed) Scenario.env
                       Scenario.empty_page).2 in
  size m = 2 /\
  forall i, i < 2 -> is_Some (m !! ("Model " +:+ decimal (i + 1))).
Proof.
  intros typed.
  apply (default_names_one_result_each Scenario.ascii_decode 2 typed
           "us-west-2" "hello" Scenario.env Scenario.empty_page).
  - lia.
  - discriminate.
  - intros [|[|i]] Hi; [reflexivity|reflexivity|lia].
  - intros [|[|i]] Hi; [by eexists|by eexists|lia].
Defined.

(** X10: as long as one Agent ID has not been typed, or has been emptied,
    pressing Compare with a prompt starts nothing: the validation message is
    shown, no future is submitted, no request is sent and the results on the
    page stay as they were. In particular nothing can be compared on a fresh
    page. *)
Theorem missing_agent_id_blocks_comparison
    (utf8_decode : list Byte.byte -> exn + string)
    (num_models : nat) (typed : string -> option string)
    (region prompt : string) (env : nat -> future_env) (p : page) (i : nat) :
  i < num_models ->
  prompt <> "" ->
  typed ("agent_" +:+ decimal i) = None \/
  typed ("agent_" +:+ decimal i) = Some "" ->
  let out := handlers utf8_decode false true region prompt
                      (models_config num_models typed) env p in
  rejected_wholesale out p /\ responses out.2 = responses p.
Proof.
  intros Hi Hp Hagent out. subst out.
  assert (~ agent_ids_configured (models_config num_models typed)) as Hbad.
  { intros Hall.
    assert (config_of_widgets typed i ∈ models_config num_models typed) as Hin.
    { apply list_elem_of_lookup. exists i. by apply models_config_lookup. }
    apply (proj1 (Forall_forall _ _) Hall) in Hin. apply Hin.
    simpl. unfold text_input. by destruct Hagent as [-> | ->]. }
  rewrite handlers_compare, compare_rejected by done.
  by repeat split.
Qed.

Lemma missing_agent_id_blocks_comparison_witness :
  let out := handlers Scenario.ascii_decode false true "us-west-2" "hello"
                      (models_config 2 (fun _ => None)) Scenario.env
                      Scenario.empty_page in
  rejected_wholesale out Scenario.empty_page /\
  responses out.2 = responses Scenario.empty_page.
Proof.
  apply (missing_agent_id_blocks_comparison Scenario.ascii_decode 2
           (fun _ => None) "us-west-2" "hello" Scenario.env
           Scenario.empty_page 0).
  - lia.
  - discriminate.
  - by left.
Defined.

(** ** Showing the results *)

Section ShowFacts.

Variable utf8_decode : list Byte.byte -> exn + string.

Implicit Types (cfgs : list config) (env : nat -> future_env) (p : page).

(** A dictionary with the fields of a result is drawn without a
    [KeyError]. *)
Lemma show_result_fields (responses : gmap string pydict) (idx : nat)
    (c : config) (d : pydict) (ok : bool) (model timestamp text : string)
    (out : list ui_call) :
  responses !! name c = Some d ->
  d !! "success" = Some (VBool ok) ->
  d !! "timestamp" = Some (VStr timestamp) ->
  d !! (if ok then "response" else "error") = Some (VStr text) ->
  show_result responses idx c out =
  (inr tt, out ++ column_calls idx (name c) ok text timestamp).
Proof.
  intros Hd Hok Hts Htext. unfold show_result, emit, getitem, column_calls.
  exc_unfold. simpl. rewrite Hd.
  assert (dict_truthy d = true) as ->.
  { unfold dict_truthy. rewrite bool_decide_eq_false_2; [done|].
    intros ->. by rewrite lookup_empty in Hok. }
  rewrite Hok. simpl. destruct ok; rewrite Htext, Hts; simpl;
    by rewrite <- !app_assoc.
Qed.

(** Every config has a result with its fields after an accepted run. *)
Lemma accepted_result_of_config (region prompt : string) cfgs env p
    (c : config) :
  passes_validation prompt cfgs ->
  c ∈ cfgs ->
  exists d,
    responses (handlers utf8_decode false true region prompt cfgs env p).2
      !! name c = Some d /\
    has_result_fields d.
Proof.
  intros Hv Hc.
  destruct (proj2 (accepted_keys utf8_decode region prompt cfgs env p
                     (name c) Hv)) as [d Hd].
  { by apply list_elem_of_fmap_2. }
  exists d. split; [done|].
  refine (accepted_Forall utf8_decode (fun _ d => has_result_fields d)
            region prompt cfgs env p Hv _ (name c) d Hd).
  intros fe c' _. apply entry_fields.
Qed.

Lemma show_results_from_run (responses : gmap string pydict) cfgs (idx : nat)
    (out : list ui_call) :
  Forall (fun c => exists d, responses !! name c = Some d /\
                             has_result_fields d) cfgs ->
  exists blocks,
    show_results_from responses idx cfgs out = (inr tt, out ++ concat blocks) /\
    Forall2 (fun c block =>
               exists (i : nat) (d : pydict) (ok : bool)
                      (model timestamp text : string),
                 responses !! name c = Some d /\
                 d !! "success" = Some (VBool ok) /\
                 d !! (if ok then "response" else "error") = Some (VStr text) /\
                 d !! "timestamp" = Some (VStr timestamp) /\
                 block = column_calls i (name c) ok text timestamp)
            cfgs blocks /\
    forall k c, cfgs !! k = Some c ->
      exists (d : pydict) (ok : bool) (timestamp text : string),
        responses !! name c = Some d /\
        d !! "success" = Some (VBool ok) /\
        d !! (if ok then "response" else "error") = Some (VStr text) /\
        d !! "timestamp" = Some (VStr timestamp) /\
        blocks !! k = Some (column_calls (idx + k) (name c) ok text timestamp).
Proof.
  intros Hall. revert idx out.
  induction Hall as [|c cfgs (d & Hd & ok & model & ts & text & Hok & _ & Hts & Htext)
                      _ IH]; intros idx out.
  - exists []. simpl. rewrite app_nil_r. repeat split; [constructor|done].
  - destruct (IH (S idx) (out ++ column_calls idx (name c) ok text ts))
      as (blocks & Hrun & Hblocks & Hat).
    exists (column_calls idx (name c) ok text ts :: blocks).
    split; [|split].
    + simpl. unfold Exc.bind.
      rewrite (show_result_fields responses idx c d ok model ts text out)
        by done.
      rewrite Hrun. by rewrite <- app_assoc.
    + constructor; [|done]. by exists idx, d, ok, model, ts, text.
    + intros [|k] c' Hk; simpl in Hk.
      * injection Hk as <-. exists d, ok, ts, text.
        rewrite Nat.add_0_r. by repeat split.
      * destruct (Hat k c' Hk) as (d' & ok' & ts' & text' & ? & ? & ? & ? & Hb).
        exists d', ok', ts', text'. repeat split; try done.
        simpl. by rewrite Hb, Nat.add_succ_r.
Qed.

End ShowFacts.

(** X11: after an accepted run the results are drawn without any
    [KeyError], and no column stays blank: the column of each config shows the
    config's name, then the text of the result kept under that name, the
    response under a success banner or the error under an error banner, and
    its timestamp. Two configs of one name show the same result. *)
Theorem every_column_shows_its_result
    (utf8_decode : list Byte.byte -> exn + string)
    (region prompt : string) (cfgs : list config)
    (env : nat -> future_env) (p : page) :
  passes_validation prompt cfgs ->
  let m := responses
             (handlers utf8_decode false true region prompt cfgs env p).2 in
  exists blocks,
    show_results m cfgs [] = (inr tt, concat blocks) /\
    length blocks = length cfgs /\
    forall k c, cfgs !! k = Some c ->
      exists (d : pydict) (ok : bool) (timestamp text : string),
        m !! name c = Some d /\
        d !! "success" = Some (VBool ok) /\
        d !! (if ok then "response" else "error") = Some (VStr text) /\
        d !! "timestamp" = Some (VStr timestamp) /\
        blocks !! k = Some (column_calls k (name c) ok text timestamp).
Proof.
  intros Hv m.
  destruct (show_results_from_run m cfgs 0 []) as (blocks & Hrun & Hblocks & Hat).
  { apply Forall_forall. intros c Hc.
    by apply (accepted_result_of_config utf8_decode region prompt cfgs env p). }
  exists blocks. split; [exact Hrun|]. split.
  - symmetry. by eapply Forall2_length.
  - exact Hat.
Qed.

Lemma every_column_shows_its_result_witness :
  let m := responses
             (handlers Scenario.ascii_decode false true "us-west-2" "hello"
                Scenario.configs Scenario.env Scenario.empty_page).2 in
  exists blocks,
    show_results m Scenario.configs [] = (inr tt, concat blocks) /\
    length blocks = 2 /\
    forall k c, Scenario.configs !! k = Some c ->
      exists (d : pydict) (ok : bool) (timestamp text : string),
        m !! name c = Some d /\
        d !! "success" = Some (VBool ok) /\
        d !! (if ok then "response" else "error") = Some (VStr text) /\
        d !! "timestamp" = Some (VStr timestamp) /\
        blocks !! k = Some (column_calls k (name c) ok text timestamp).
Proof.
  apply (every_column_shows_its_result Scenario.ascii_decode "us-west-2"
           "hello" Scenario.configs Scenario.env Scenario.empty_page).
  split; [discriminate | repeat constructor; discriminate].
Defined.

(** ** The comparison summary *)

Section DictFacts.

Implicit Types (items : list (string * pydict)).

Lemma dict_set_keys (key : string) (value : pydict) items :
  (dict_set key value items).*1 =
  if decide (key ∈ items.*1) then items.*1 else items.*1 ++ [key].
Proof.
  induction items as [|[k v] items IH].
  - destruct (decide (key ∈ ([] : list (string * pydict)).*1)) as [Hin|_];
      [by apply elem_of_nil in Hin|done].
  - cbn [dict_set]. destruct (decide (k = key)) as [->|Hne].
    + destruct (decide (key ∈ ((key, v) :: items).*1)) as [_|Hnin]; [done|].
      exfalso. apply Hnin. by left.
    + rewrite fmap_cons, IH. cbn [fst].
      destruct (decide (key ∈ items.*1)) as [Hin|Hnin],
               (decide (key ∈ ((k, v) :: items).*1)) as [Hin'|Hnin'];
        try done.
      * exfalso. apply Hnin'. by right.
      * exfalso. rewrite fmap_cons in Hin'. cbn [fst] in Hin'.
        apply elem_of_cons in Hin' as [?|?]; [congruence|done].
Qed.

Lemma dict_set_NoDup (key : string) (value : pydict) items :
  NoDup items.*1 -> NoDup (dict_set key value items).*1.
Proof.
  intros Hnd. rewrite dict_set_keys.
  destruct (decide (key ∈ items.*1)); [done|].
  apply NoDup_app. split; [done|]. split; [|apply NoDup_singleton].
  by intros k Hk ->%list_elem_of_singleton.
Qed.

(** Assigning in the items is inserting in the mapping. *)
Lemma dict_set_to_map (key : string) (value : pydict) items :
  NoDup items.*1 ->
  (list_to_map (dict_set key value items) : gmap string pydict)
  = <[key := value]> (list_to_map items).
Proof.
  induction items as [|[k v] items IH]; simpl; [done|].
  intros [Hk Hnd]%NoDup_cons.
  destruct (decide (k = key)) as [->|Hne]; simpl.
  - by rewrite insert_insert_eq.
  - rewrite IH by done. by apply insert_insert_ne.
Qed.

Lemma dict_set_Forall (P : string -> pydict -> Prop) (key : string)
    (value : pydict) items :
  P key value ->
  Forall (fun kv => P kv.1 kv.2) items ->
  Forall (fun kv => P kv.1 kv.2) (dict_set key value items).
Proof.
  intros Hv. induction 1 as [|[k v] items Hkv Hrest IH]; simpl.
  - by repeat constructor.
  - destruct (decide (k = key)); constructor; done.
Qed.

(** The items the loop leaves: their keys are distinct, they are the items of
    the mapping of the model, and each is the dictionary of a future under
    that future's name. *)
Lemma collected_items_spec (P : string -> pydict -> Prop)
    (completed : list future) :
  Forall (fun f => P (fut_name f) (entry f)) completed ->
  NoDup (collected_items completed).*1 /\
  list_to_map (collected_items completed) = foldl record ∅ completed /\
  Forall (fun kv => P kv.1 kv.2) (collected_items completed).
Proof.
  unfold collected_items. intros Hall.
  assert (forall items,
            NoDup items.*1 -> Forall (fun kv => P kv.1 kv.2) items ->
            NoDup (foldl (fun items f => dict_set (fut_name f) (entry f) items)
                         items completed).*1 /\
            list_to_map (foldl (fun items f =>
                                  dict_set (fut_name f) (entry f) items)
                               items completed)
            = foldl record (list_to_map items) completed /\
            Forall (fun kv => P kv.1 kv.2)
                   (foldl (fun items f => dict_set (fut_name f) (entry f) items)
                          items completed)) as Hgen.
  { induction Hall as [|f completed Hf _ IH]; intros items Hnd HP; simpl.
    - done.
    - destruct (IH (dict_set (fut_name f) (entry f) items))
        as (Hnd' & Hmap & HP').
      + by apply dict_set_NoDup.
      + by apply dict_set_Forall.
      + split; [done|]. split; [|done].
        rewrite Hmap. unfold record at 2. by rewrite dict_set_to_map. }
  apply (Hgen []); constructor.
Qed.

(** With distinct names the keys are the names in the order of the
    futures. *)
Lemma collected_items_keys (completed : list future) :
  NoDup (fut_name <$> completed) ->
  (collected_items completed).*1 = fut_name <$> completed.
Proof.
  unfold collected_items.
  assert (forall items,
            NoDup (items.*1 ++ (fut_name <$> completed)) ->
            (foldl (fun items f => dict_set (fut_name f) (entry f) items)
                   items completed).*1
            = items.*1 ++ (fut_name <$> completed)) as Hgen.
  { induction completed as [|f completed IH]; intros items Hnd; simpl.
    - by rewrite app_nil_r.
    - rewrite fmap_cons in Hnd.
      rewrite IH; rewrite dict_set_keys.
      + rewrite decide_False; [by rewrite <- app_assoc|].
        apply NoDup_app in Hnd as (_ & Hdis & _).
        intros Hin. apply (Hdis _ Hin). by left.
      + rewrite decide_False.
        * by rewrite <- app_assoc.
        * apply NoDup_app in Hnd as (_ & Hdis & _).
          intros Hin. apply (Hdis _ Hin). by left. }
  intros Hnd. by apply (Hgen []).
Qed.

End DictFacts.

Section SummaryFacts.

Variable str_len : string -> nat.

Lemma append_summary_row_fields (model_name : string) (d : pydict)
    (ok : bool) (text timestamp : string) (data : list summary_row) :
  d !! "success" = Some (VBool ok) ->
  d !! "timestamp" = Some (VStr timestamp) ->
  d !! (if ok then "response" else "error") = Some (VStr text) ->
  append_summary_row str_len model_name d data =
  (inr tt, data ++ [row_of_fields str_len model_name ok text timestamp]).
Proof.
  intros Hok Hts Htext. unfold append_summary_row, getitem, row_of_fields.
  exc_unfold. simpl. rewrite Hok. simpl.
  destruct ok; simpl; rewrite ?Htext, Hts; done.
Qed.

Lemma for_item_fields (items : list (string * pydict))
    (data : list summary_row) :
  Forall (fun kv => has_result_fields kv.2) items ->
  exists rows,
    for_item str_len items data = (inr tt, data ++ rows) /\
    Forall2 (fun kv row =>
               exists (ok : bool) (text timestamp : string),
                 kv.2 !! "success" = Some (VBool ok) /\
                 kv.2 !! (if ok then "response" else "error")
                 = Some (VStr text) /\
                 row = row_of_fields str_len kv.1 ok text timestamp)
            items rows.
Proof.
  intros Hall. revert data.
  induction Hall as [|[k d] items (ok & model & ts & text & Hok & _ & Hts & Htext)
                      _ IH]; intros data.
  - exists []. simpl. rewrite app_nil_r. split; [done|constructor].
  - destruct (IH (data ++ [row_of_fields str_len k ok text ts]))
      as (rows & Hrun & Hrows).
    exists (row_of_fields str_len k ok text ts :: rows). split.
    + simpl in *. unfold Exc.bind.
      rewrite (append_summary_row_fields k d ok text ts data) by done.
      rewrite Hrun. by rewrite <- app_assoc.
    + constructor; [|done]. by exists ok, text, ts.
Qed.

End SummaryFacts.

(** X12: once the collection loop, started on the empty mapping, has gone
    through the futures of a batch, in whatever order they were handed to
    it, the comparison summary is built without any exception and has one
    row per stored result, in the order in which the names were first
    stored: with pairwise distinct names, the order in which the loop
    collected the futures. A row says success and gives the length of the
    response when its result is a success; it says failed and gives no
    length when the result is a failure. *)
Theorem summary_lists_every_result
    (utf8_decode : list Byte.byte -> exn + string) (str_len : string -> nat)
    (region prompt : string) (cfgs : list config)
    (env : nat -> future_env) (p : page) (completed : list future) :
  cfgs <> [] ->
  completed ≡ₚ submit_all utf8_decode region prompt env cfgs ->
  let items := collected_items completed in
  list_to_map items
  = responses (for_future completed (set_responses ∅ p)).2
  /\ NoDup items.*1
  /\ (NoDup (name <$> cfgs) -> items.*1 = fut_name <$> completed)
  /\ exists rows,
       comparison_summary str_len items = inr (Some rows) /\
       Forall2 (fun kv row =>
                  exists (ok : bool) (text timestamp : string),
                    kv.2 !! "success" = Some (VBool ok) /\
                    kv.2 !! (if ok then "response" else "error")
                    = Some (VStr text) /\
                    row = row_of_fields str_len kv.1 ok text timestamp)
               items rows.
Proof.
  intros Hne Hperm items.
  set (futures := submit_all utf8_decode region prompt env cfgs) in *.
  assert (fut_name <$> completed ≡ₚ name <$> cfgs) as Hnames.
  { rewrite Hperm. unfold futures. by rewrite submit_all_names. }
  assert (Forall (fun f => has_result_fields (entry f)) completed) as Hall.
  { rewrite Hperm. apply submit_all_Forall. intros fe c _. apply entry_fields. }
  destruct (collected_items_spec (fun _ d => has_result_fields d)
              completed Hall) as (Hnd & Hmap & Hfields).
  fold items in Hnd, Hmap, Hfields.
  assert (items <> []) as Hitems.
  { intros Hnil. rewrite Hnil in Hmap. simpl in Hmap.
    assert (dom (foldl record ∅ completed) = list_to_set (name <$> cfgs))
      as Hdom.
    { rewrite dom_foldl_record, dom_empty_L, (left_id_L ∅ (∪)).
      by rewrite Hnames. }
    rewrite <- Hmap, dom_empty_L in Hdom.
    destruct cfgs as [|c cfgs']; [done|].
    assert (name c ∈ (∅ : gset string)) as Hin; [|by apply elem_of_empty in Hin].
    rewrite Hdom. simpl. apply elem_of_union_l. by apply elem_of_singleton. }
  split; [|split; [done|split]].
  - rewrite Hmap. by rewrite for_future_run.
  - intros Hdistinct. apply collected_items_keys. by rewrite Hnames.
  - destruct (for_item_fields str_len items [] Hfields) as (rows & Hrun & Hrows).
    exists rows. split; [|done].
    clearbody items. unfold comparison_summary. rewrite Hrun.
    by destruct items.
Qed.

Lemma summary_lists_every_result_witness :
  let completed :=
    submit_all Scenario.ascii_decode "us-west-2" "hello"
               Scenario.env Scenario.configs in
  let items := collected_items completed in
  list_to_map items
  = responses (for_future completed
                 (set_responses ∅ Scenario.empty_page)).2
  /\ NoDup items.*1
  /\ (NoDup (name <$> Scenario.configs) -> items.*1 = fut_name <$> completed)
  /\ exists rows,
       comparison_summary code_points items = inr (Some rows) /\
       Forall2 (fun kv row =>
                  exists (ok : bool) (text timestamp : string),
                    kv.2 !! "success" = Some (VBool ok) /\
                    kv.2 !! (if ok then "response" else "error")
                    = Some (VStr text) /\
                    row = row_of_fields code_points kv.1 ok text timestamp)
               items rows.
Proof.
  apply (summary_lists_every_result Scenario.ascii_decode code_points
           "us-west-2" "hello" Scenario.configs Scenario.env
           Scenario.empty_page
           (submit_all Scenario.ascii_decode "us-west-2" "hello"
                       Scenario.env Scenario.configs)).
  - discriminate.
  - reflexivity.
Defined.

(** ** Chunks of empty text *)

(** X14: a stream delivered to its end whose chunks all decode to the empty
    text gives the same result as a stream of no chunk at all: a success with
    the placeholder. The result does not tell an agent that answered with
    empty text from an agent that answered nothing. *)
Theorem empty_text_chunks_give_placeholder
    (utf8_decode : list Byte.byte -> exn + string)
    (w : task_world) (a al s p m r : string) (log : list request)
    (c : client) (resp : response) :
  boto3_client w "bedrock-agent-runtime" r = inr c ->
  c (request_of a al s p) = inr resp ->
  faultless (stream_of resp) ->
  Forall (fun b => utf8_decode b = inr "") (payloads (stream_of resp)) ->
  invoke_agent utf8_decode w a al s p m r log
  = (inr (success_result "No response received" m (now w)),
     log ++ [request_of a al s p]).
Proof.
  intros Hc Hresp Hf Hempty.
  rewrite (invoke_agent_answered utf8_decode w a al s p m r log c resp Hc Hresp).
  rewrite for_event_payloads by done. simpl.
  assert (decode_onto utf8_decode "" (payloads (stream_of resp)) = inr "")
    as ->; [|done].
  induction Hempty as [|b bs Hb _ IH]; [done|].
  simpl. by rewrite Hb.
Qed.

Lemma empty_text_chunks_give_placeholder_witness :
  invoke_agent Scenario.ascii_decode
    (Scenario.streaming [Scenario.chunk ""; Scenario.chunk ""]
                        "2024-05-01 10:00:00")
    "AGENT0001" "TSTALIASID" "session-0" "hello" "A" "us-west-2" []
  = (inr (success_result "No response received" "A" "2024-05-01 10:00:00"),
     [] ++ [request_of "AGENT0001" "TSTALIASID" "session-0" "hello"]).
Proof.
  refine (empty_text_chunks_give_placeholder Scenario.ascii_decode
            (Scenario.streaming [Scenario.chunk ""; Scenario.chunk ""]
                                "2024-05-01 10:00:00")
            "AGENT0001" "TSTALIASID" "session-0" "hello" "A" "us-west-2" []
            (fun _ => inr (Response (Some [Scenario.chunk "";
                                           Scenario.chunk ""])))
            (Response (Some [Scenario.chunk ""; Scenario.chunk ""]))
            eq_refl eq_refl _ _).
  - repeat constructor; by eexists.
  - repeat constructor.
Defined.
